(** * decision/models.py: votes, delegations and vote propagation

    A shallow embedding of the models of the [decision] application:
    [Poll.set_vote], [Poll.get_vote], [Poll.get_user_choice], the
    [pre_save] handler [prevent_delegation_to_self] and the [post_save]
    handler [propagate_vote] with its recursive SQL statement.

    The database is a record of the three tables the code reads and writes.
    Every SQL statement is atomic; the source opens no transaction around
    several statements, so a statement that fails leaves the rows written by
    the statements before it. *)

From Stdlib Require Import Ascii.
From stdpp Require Import base numbers decidable option list strings pretty.

(** ** Rows and tables *)

(** Primary keys and foreign keys are integers. *)
Abbreviation pk := Z.

(** [Poll]: [name] plays no part in the code modelled here. *)
Record Poll := mkPoll {
  poll_pk : pk;
  poll_category : option pk;   (* ForeignKey(Category, null=True) *)
  is_open : bool
}.

(** [Choice]: [name] and [vote_count] play no part here. *)
Record Choice := mkChoice {
  choice_pk : pk;
  choice_poll : pk             (* ForeignKey(Poll) *)
}.

(** A row of [decision_vote]. The table is kept in primary-key order
    ([ordering = ('pk',)]), so a row's position stands for its [id]. *)
Record Vote := mkVote {
  vote_user : pk;
  vote_poll : pk;
  vote_choice : pk;
  vote_delegate : option pk    (* null=True *)
}.

(** A row of [decision_delegation]; the many-to-many field [categories] is
    the table [decision_delegation_categories] of pairs
    (delegation_id, category_id). *)
Record Delegation := mkDelegation {
  delegation_pk : pk;
  follower : pk;
  leader : pk
}.

Record DB := mkDB {
  decision_delegation : list Delegation;
  decision_delegation_categories : list (pk * pk);
  decision_vote : list Vote
}.

(** A row of the recursive table [dlg] of [propagate_vote]. *)
Record dlg_row := mkDlg {
  dlg_user_id : pk;
  dlg_poll_id : pk;
  dlg_choice_id : pk;
  dlg_delegate_id : option pk
}.

#[global] Instance Vote_eq_dec : EqDecision Vote.
Proof. solve_decision. Defined.
#[global] Instance Delegation_eq_dec : EqDecision Delegation.
Proof. solve_decision. Defined.
#[global] Instance dlg_row_eq_dec : EqDecision dlg_row.
Proof. solve_decision. Defined.

Definition set_decision_vote (db : DB) (votes : list Vote) : DB :=
  {| decision_delegation := decision_delegation db;
     decision_delegation_categories := decision_delegation_categories db;
     decision_vote := votes |}.

Definition set_decision_delegation (db : DB) (ds : list Delegation) : DB :=
  {| decision_delegation := ds;
     decision_delegation_categories := decision_delegation_categories db;
     decision_vote := decision_vote db |}.

(** ** Exceptions *)

(** Modelled from the spec: the module decision/exceptions.py is not part of
    the sources; [PollClosed], [InvalidChoice] and [CantDelegateToSelf] are
    the classes models.py raises from it. [PyException] is the builtin
    [Exception] that [set_vote] raises at two places; the last three are
    Django's. [Unfinished] is no Python exception: it marks a recursive
    query cut off by the iteration bound of the model, which
    [dlg_total] shows never happens. *)
Inductive error :=
  | PollClosed
  | InvalidChoice
  | CantDelegateToSelf
  | PyException
  | DoesNotExist
  | MultipleObjectsReturned
  | IntegrityError
  | Unfinished.

#[global] Instance error_eq_dec : EqDecision error.
Proof. solve_decision. Defined.

Inductive result (A : Type) :=
  | Ok (a : A)
  | Raise (e : error).
Arguments Ok {A} a.
Arguments Raise {A} e.

(** Database code: a state transformer that returns a value or raises. The
    state that comes with [Raise] is the database at the time of the raise. *)
Definition M (A : Type) : Type := DB → DB * result A.

#[global] Instance M_ret : MRet M := λ A a db, (db, Ok a).
#[global] Instance M_bind : MBind M := λ A B f m db,
  match m db with
  | (db', Ok a) => f a db'
  | (db', Raise e) => (db', Raise e)
  end.

Definition raise {A} (e : error) : M A := λ db, (db, Raise e).

(** [try: m except e0: handler] *)
Definition try_except {A} (m : M A) (e0 : error) (handler : M A) : M A := λ db,
  match m db with
  | (db', Raise e) => if decide (e = e0) then handler db' else (db', Raise e)
  | r => r
  end.

(** [try: m except e0: handler else: orelse]; the else part is not guarded. *)
Definition try_except_else {A B} (m : M A) (e0 : error) (handler : M B)
    (orelse : A → M B) : M B := λ db,
  match m db with
  | (db', Ok a) => orelse a db'
  | (db', Raise e) => if decide (e = e0) then handler db' else (db', Raise e)
  end.

(** A read-only query. *)
Definition query {A} (q : DB → result A) : M A := λ db, (db, q db).

(** [Manager.get] on the rows a filter selects. *)
Definition objects_get {A} (rows : list A) : result A :=
  match rows with
  | [] => Raise DoesNotExist
  | [x] => Ok x
  | _ => Raise MultipleObjectsReturned
  end.

(** ** The recursive statement of [propagate_vote] *)

Section Propagate.
Variable db : DB.
Variable instance_poll : Poll.     (* instance.poll *)
Variable instance : Vote.          (* the vote just saved *)

(** The two branches of [extra_condition], on the delegation [d]. *)
Definition extra_condition (d : Delegation) : bool :=
  let dc := decision_delegation_categories db in
  match poll_category instance_poll with
  | Some category_id =>
      (* d.id NOT IN (SELECT dc.delegation_id FROM dc)
         OR d.id IN (SELECT dc.delegation_id FROM dc
                     WHERE dc.category_id = %s) *)
      negb (bool_decide (delegation_pk d ∈ dc.*1))
      || bool_decide
           (delegation_pk d ∈ (filter (λ r, r.2 = category_id) dc).*1)
  | None =>
      (* (SELECT COUNT(id) FROM dc WHERE dc.delegation_id = d.id) < 1 *)
      bool_decide
        (length (filter (λ r, r.1 = delegation_pk d) dc) < 1)
  end.

(** SELECT COUNT(v.id) FROM decision_vote AS v
    WHERE v.user_id = user_id AND v.poll_id = poll_id *)
Definition vote_count (user_id poll_id : pk) : nat :=
  length (filter (λ v, vote_user v = user_id ∧ vote_poll v = poll_id)
                 (decision_vote db)).

(** The WHERE clause of the recursive term, on a joined pair. *)
Definition where_clause (d : Delegation) (w : dlg_row) : bool :=
  bool_decide (leader d = dlg_user_id w)
  && extra_condition d
  && bool_decide (vote_count (follower d) (dlg_poll_id w) < 1).

(** The recursive term: decision_delegation joined with the working table. *)
Definition recursive_term (work : list dlg_row) : list dlg_row :=
  d ← decision_delegation db;
  w ← work;
  if bool_decide (dlg_user_id w = leader d) && where_clause d w
  then [mkDlg (follower d) (dlg_poll_id w) (dlg_choice_id w) (Some (leader d))]
  else [].

(** VALUES(%s, %s, %s, null) *)
Definition base_row : dlg_row :=
  mkDlg (vote_user instance) (vote_poll instance) (vote_choice instance) None.

(** WITH RECURSIVE ... UNION: the recursive term is evaluated on the rows
    that were new in the previous round; of its rows, the duplicates and
    those already in the result are dropped; it ends when a round brings
    nothing new. [fuel] bounds the number of rounds. *)
Fixpoint with_recursive (fuel : nat) (acc work : list dlg_row)
  : option (list dlg_row) :=
  match work with
  | [] => Some acc
  | _ :: _ =>
      match fuel with
      | 0 => None
      | S fuel' =>
          let new := list_difference (remove_dups (recursive_term work)) acc in
          with_recursive fuel' (acc ++ new) new
      end
  end.

(** The table [dlg]. One round per delegation, and one more, is enough. *)
Definition dlg_fuel : nat := S (length (decision_delegation db)).

Definition dlg : option (list dlg_row) :=
  with_recursive dlg_fuel [base_row] [base_row].

(** SELECT ... FROM dlg WHERE dlg_user_id != %s *)
Definition selected (rows : list dlg_row) : list Vote :=
  (λ r, mkVote (dlg_user_id r) (dlg_poll_id r) (dlg_choice_id r)
               (dlg_delegate_id r))
  <$> filter (λ r, dlg_user_id r ≠ vote_user instance) rows.
End Propagate.

(** unique_together = ('user', 'poll') *)
Definition same_user_poll (v r : Vote) : Prop :=
  vote_user v = vote_user r ∧ vote_poll v = vote_poll r.

#[global] Instance same_user_poll_dec v r : Decision (same_user_poll v r).
Proof. unfold same_user_poll. apply _. Defined.

(** INSERT INTO decision_vote of several rows: one statement, so a row that
    breaks the unique constraint makes the whole statement fail. The SELECT
    that feeds it reads the table as it is when the statement starts: the
    rows being inserted are not counted by [vote_count]. *)
Fixpoint insert_votes (table rows : list Vote) : option (list Vote) :=
  match rows with
  | [] => Some table
  | r :: rows' =>
      if decide (Exists (λ v, same_user_poll v r) table) then None
      else insert_votes (table ++ [r]) rows'
  end.

Definition propagate_vote (instance_poll : Poll) (instance : Vote) : M unit :=
  λ db,
  match dlg db instance_poll instance with
  | None => (db, Raise Unfinished)
  | Some rows =>
      match insert_votes (decision_vote db) (selected instance rows) with
      | Some votes => (set_decision_vote db votes, Ok ())
      | None => (db, Raise IntegrityError)
      end
  end.

(** ** [Vote] saves: the row is written, then [post_save] runs
    [propagate_vote] on it *)

(** [self.votes.create(user=.., choice=.., delegate=..)] *)
Definition votes_create (self : Poll) (vote : Vote) : M Vote :=
  (λ db, match insert_votes (decision_vote db) [vote] with
         | Some votes => (set_decision_vote db votes, Ok ())
         | None => (db, Raise IntegrityError)
         end);;
  propagate_vote self vote;;
  mret vote.

(** [vote.save()] of the row [old] fetched before, with its new fields. *)
Definition Vote_save (self : Poll) (old vote : Vote) : M Vote :=
  (λ db, (set_decision_vote db
            ((λ v, if decide (same_user_poll v old) then vote else v)
             <$> decision_vote db), Ok ()));;
  propagate_vote self vote;;
  mret vote.

(** ** [Poll] methods *)

(** A Python value given as [choice]: a [Choice] or anything else. *)
Inductive pyobj :=
  | ChoiceObj (c : Choice)
  | OtherObj.

(** [self.votes.get(user=user)] *)
Definition votes_get (self : Poll) (user : pk) (db : DB) : result Vote :=
  objects_get
    (filter (λ v, vote_poll v = poll_pk self ∧ vote_user v = user)
            (decision_vote db)).

(** The rows of
    [Delegation.objects.filter(Q(categories=None) | Q(categories=self.category),
                               leader=delegate, follower=user)]:
    the delegations are left-joined with their categories, so a delegation
    without categories gives one row, with a null category, and one with
    categories gives a row for every category equal to the poll's. *)
Definition delegation_rows (self : Poll) (delegate user : pk) (db : DB)
  : list Delegation :=
  d ← filter (λ d, leader d = delegate ∧ follower d = user)
             (decision_delegation db);
  match filter (λ r, r.1 = delegation_pk d) (decision_delegation_categories db) with
  | [] => [d]
  | rs => r ← rs; if decide (Some r.2 = poll_category self) then [d] else []
  end.

Definition set_vote (self : Poll) (user : pk) (choice : pyobj)
    (delegate : option pk) (secure : bool) : M Vote :=
  (if negb (is_open self) then raise PollClosed else mret ());;
  c ← match choice with
      | ChoiceObj c =>
          if decide (choice_poll c ≠ poll_pk self) then raise InvalidChoice
          else mret c
      | OtherObj => raise InvalidChoice
      end;
  match secure, delegate with
  | true, Some l =>
      try_except
        (query (λ db, objects_get (delegation_rows self l user db));; mret ())
        DoesNotExist
        (raise PyException)
  | _, _ => mret ()
  end;;
  try_except_else
    (query (votes_get self user))
    DoesNotExist
    (votes_create self (mkVote user (poll_pk self) (choice_pk c) delegate))
    (λ vote,
       match secure, delegate, vote_delegate vote with
       | true, Some _, None => raise PyException
       | _, _, _ => mret ()
       end;;
       Vote_save self vote
         (mkVote (vote_user vote) (vote_poll vote) (choice_pk c) delegate)).

Definition get_vote (self : Poll) (user : pk) : M Vote :=
  query (votes_get self user).

(** The choice is returned by its primary key; [None] is Python's None. *)
Definition get_user_choice (self : Poll) (user : pk) : M (option pk) :=
  try_except
    (vote ← get_vote self user; mret (Some (vote_choice vote)))
    DoesNotExist
    (mret None).

(** ** [Delegation] saves *)

Definition prevent_delegation_to_self (instance : Delegation) : M unit :=
  if decide (leader instance = follower instance) then raise CantDelegateToSelf
  else mret ().

(** [instance.save()]: [pre_save] runs the handler, then the row is written:
    in place when its primary key is in the table, at the end otherwise;
    unique_together = ('leader', 'follower') is checked against the other
    rows. *)
Definition Delegation_write (instance : Delegation) : M unit := λ db,
  let table := decision_delegation db in
  if decide (Exists (λ d, delegation_pk d ≠ delegation_pk instance
                          ∧ leader d = leader instance
                          ∧ follower d = follower instance) table)
  then (db, Raise IntegrityError)
  else if decide (Exists (λ d, delegation_pk d = delegation_pk instance) table)
  then (set_decision_delegation db
          ((λ d, if decide (delegation_pk d = delegation_pk instance)
                 then instance else d) <$> table), Ok ())
  else (set_decision_delegation db (table ++ [instance]), Ok ()).

Definition Delegation_save (instance : Delegation) : M unit :=
  prevent_delegation_to_self instance;;
  Delegation_write instance.

(** ** Cache keys *)

(** An argument of the two key functions: an int, or a model instance, of
    which the code reads the primary key [.pk] and, where it formats the
    instance itself with %s, the text that formatting gives. *)
Inductive pyarg :=
  | IntArg (n : Z)
  | ModelArg (instance_pk : pk) (text : string).

(** A key, or the AttributeError of reading [.pk] of an int. *)
Inductive key_result :=
  | CacheKey (key : string)
  | AttributeError.

(** [x if isinstance(x, int) else x.pk] *)
Definition int_or_pk (x : pyarg) : Z :=
  match x with
  | IntArg n => n
  | ModelArg k _ => k
  end.

(** ['%s' % x] *)
Definition format_s (x : pyarg) : string :=
  match x with
  | IntArg n => pretty n
  | ModelArg _ text => text
  end.

(** The key is formatted with [choice], not with [choice_pk]. *)
Definition get_poll_choice_cache_key (poll choice : pyarg) : string :=
  let poll_pk := int_or_pk poll in
  let choice_pk := int_or_pk choice in
  "decision:pc:" +:+ pretty poll_pk +:+ ":" +:+ format_s choice.

(** The key is formatted with [user.pk], not with [user_pk]. *)
Definition get_user_choice_cache_key (poll user : pyarg) : key_result :=
  let poll_pk := int_or_pk poll in
  let user_pk := int_or_pk user in
  match user with
  | IntArg _ => AttributeError
  | ModelArg k _ =>
      CacheKey ("decision:uv:" +:+ pretty poll_pk +:+ ":" +:+ pretty k)
  end.

(** No character of the string is a colon. *)
Fixpoint colon_free (s : string) : Prop :=
  match s with
  | EmptyString => True
  | String c s' => c ≠ ":"%char ∧ colon_free s'
  end.

(** ** Notions the statements use *)

(** The category set of a delegation: its rows in the many-to-many table. *)
Definition delegation_categories (db : DB) (d : Delegation) : list pk :=
  (filter (λ r, r.1 = delegation_pk d) (decision_delegation_categories db)).*2.

(** The scoping rule in the words of the specification: an empty category
    set matches every poll, a non-empty one the polls whose category is in
    the set. *)
Definition scope_matches (categories : list pk) (poll_cat : option pk) : Prop :=
  categories = [] ∨ ∃ c, poll_cat = Some c ∧ c ∈ categories.

(** [delegation_path db u via root]: [u] delegates to [root] along edges of
    the delegation table; [via] lists the users on the way, from [u] on,
    [root] left out. *)
Inductive delegation_path (db : DB) : pk → list pk → pk → Prop :=
  | path_edge d :
      d ∈ decision_delegation db →
      delegation_path db (follower d) [follower d] (leader d)
  | path_step d via root :
      d ∈ decision_delegation db →
      delegation_path db (leader d) via root →
      delegation_path db (follower d) (follower d :: via) root.

(** At most one vote for every (user, poll). *)
Definition votes_unique (votes : list Vote) : Prop :=
  NoDup ((λ v, (vote_user v, vote_poll v)) <$> votes).

Section PropagateNotions.
Variable db : DB.
Variable instance : Vote.

(** The rows the query can ever hold. *)
Definition candidates : list dlg_row :=
  base_row instance
  :: ((λ d, mkDlg (follower d) (vote_poll instance) (vote_choice instance)
                  (Some (leader d)))
      <$> decision_delegation db).

(** The row is the base row, or its user delegates to the voter along
    users none of whom has a vote for the poll. *)
Definition reached (r : dlg_row) : Prop :=
  dlg_poll_id r = vote_poll instance
  ∧ (r = base_row instance
     ∨ ∃ via, delegation_path db (dlg_user_id r) via (vote_user instance)
              ∧ ∀ x, x ∈ via → vote_count db x (vote_poll instance) = 0).
End PropagateNotions.

(** The choice is a [Choice] of the poll. *)
Definition choice_of_poll (choice : pyobj) (self : Poll) : Prop :=
  ∃ c, choice = ChoiceObj c ∧ choice_poll c = poll_pk self.

(** A delegation from [user] to [delegate] whose scope matches the poll. *)
Definition authorized (self : Poll) (delegate user : pk) (db : DB) : Prop :=
  ∃ d, d ∈ decision_delegation db
       ∧ leader d = delegate ∧ follower d = user
       ∧ scope_matches (delegation_categories db d) (poll_category self).

(** Unfolding of the monad of database code. *)
Ltac unfold_M :=
  unfold try_except_else, try_except, query, raise, mbind, M_bind, mret, M_ret.

#[global] Instance choice_of_poll_dec choice self :
  Decision (choice_of_poll choice self).
Proof.
  destruct choice as [c|].
  - destruct (decide (choice_poll c = poll_pk self)) as [E|E].
    + left. by exists c.
    + right. intros (c' & [= <-] & ?). done.
  - right. intros (c' & [=] & _).
Defined.

(** unique_together = ('leader', 'follower'), and the rows of the
    many-to-many table are distinct: the query finds at most one row. *)
Definition delegations_unique (db : DB) : Prop :=
  NoDup ((λ d, (leader d, follower d)) <$> decision_delegation db)
  ∧ NoDup (decision_delegation_categories db).

(** ** Sample data *)

Module Sample.
Definition alice : pk := 1.
Definition bob : pk := 2.
Definition carol : pk := 3.
Definition dave : pk := 4.

Definition finance : pk := 7.
Definition health : pk := 8.

Definition poll : Poll := mkPoll 10 None true.
Definition closed_poll : Poll := mkPoll 11 None false.
Definition health_poll : Poll := mkPoll 12 (Some health) true.
Definition yes : Choice := mkChoice 100 10.
Definition no : Choice := mkChoice 101 10.
Definition health_yes : Choice := mkChoice 120 12.

(** bob and carol delegate to alice, dave delegates to bob. *)
Definition tree : list Delegation :=
  [mkDelegation 1 bob alice; mkDelegation 2 carol alice;
   mkDelegation 3 dave bob].

(** As [tree], and dave delegates to carol as well. *)
Definition diamond : list Delegation :=
  tree ++ [mkDelegation 4 dave carol].

(** alice delegates to bob, bob to carol, carol to alice. *)
Definition cycle : list Delegation :=
  [mkDelegation 1 alice bob; mkDelegation 2 bob carol;
   mkDelegation 3 carol alice].

Definition cycle_db : DB := mkDB cycle [] [].
End Sample.

(** ** The recursive query: membership, invariants, termination *)

Section PropagateFacts.
Variable db : DB.
Variable instance_poll : Poll.
Variable instance : Vote.

Local Abbreviation step := (recursive_term db instance_poll).
Local Abbreviation loop := (with_recursive db instance_poll).
Local Abbreviation base := (base_row instance).

Lemma vote_count_lt_1 u p : vote_count db u p < 1 ↔ vote_count db u p = 0.
Proof. lia. Qed.

Lemma recursive_term_elem r work :
  r ∈ step work ↔
  ∃ d w, d ∈ decision_delegation db ∧ w ∈ work
         ∧ where_clause db instance_poll d w = true
         ∧ r = mkDlg (follower d) (dlg_poll_id w) (dlg_choice_id w)
                     (Some (leader d)).
Proof.
  unfold recursive_term. rewrite list_elem_of_bind. split.
  - intros (d & Hr & Hd). apply list_elem_of_bind in Hr as (w & Hr & Hw).
    destruct (bool_decide _ && where_clause _ _ d w) eqn:E.
    + apply andb_true_iff in E as [_ E]. apply list_elem_of_singleton in Hr.
      eauto 10.
    + by apply elem_of_nil in Hr.
  - intros (d & w & Hd & Hw & E & ->). exists d. split; [|done].
    apply list_elem_of_bind. exists w. split; [|done].
    assert (bool_decide (dlg_user_id w = leader d) = true) as ->.
    { apply bool_decide_eq_true. unfold where_clause in E.
      apply andb_true_iff in E as [E _]. apply andb_true_iff in E as [E _].
      by apply bool_decide_eq_true in E. }
    rewrite E. simpl. apply list_elem_of_here.
Qed.

Lemma length_candidates : length (candidates db instance) = dlg_fuel db.
Proof. unfold candidates, dlg_fuel. simpl. by rewrite length_fmap. Qed.

Lemma candidates_poll_choice r :
  r ∈ candidates db instance →
  dlg_poll_id r = vote_poll instance ∧ dlg_choice_id r = vote_choice instance.
Proof.
  unfold candidates. rewrite elem_of_cons, list_elem_of_fmap.
  intros [-> | (d & -> & _)]; done.
Qed.

Lemma recursive_term_candidates work :
  work ⊆ candidates db instance → step work ⊆ candidates db instance.
Proof.
  intros Hw r Hr. apply recursive_term_elem in Hr as (d & w & Hd & Hin & _ & ->).
  destruct (candidates_poll_choice w (Hw _ Hin)) as [-> ->].
  unfold candidates. apply elem_of_cons. right.
  apply list_elem_of_fmap. by exists d.
Qed.

(** A property of rows that the recursive term passes on holds of the
    whole result. *)
Lemma with_recursive_Forall (I : dlg_row → Prop) :
  (∀ work, Forall I work → Forall I (step work)) →
  ∀ fuel acc work rows,
    Forall I acc → Forall I work →
    loop fuel acc work = Some rows → Forall I rows.
Proof.
  intros Hstep fuel. induction fuel as [|fuel IH]; intros acc work rows Ha Hw.
  - destruct work; simpl; [|done]. by intros [= <-].
  - destruct work as [|w work]; simpl; [by intros [= <-]|].
    assert (Forall I (list_difference (remove_dups (step (w :: work))) acc))
      as Hnew.
    { apply Forall_forall. intros r Hr.
      apply list_elem_of_difference in Hr as [Hr _].
      rewrite elem_of_remove_dups in Hr.
      by apply (proj1 (Forall_forall I _) (Hstep _ Hw)). }
    apply IH; [|done]. by apply Forall_app.
Qed.

(** More rounds than needed change nothing. *)
Lemma with_recursive_mono fuel fuel' acc work rows :
  loop fuel acc work = Some rows → fuel ≤ fuel' →
  loop fuel' acc work = Some rows.
Proof.
  revert fuel' acc work. induction fuel as [|fuel IH]; intros fuel' acc work.
  - destruct work; simpl; [|done]. intros [= <-] _. by destruct fuel'.
  - destruct work as [|w work]; simpl.
    + intros [= <-] _. by destruct fuel'.
    + intros H Hle. destruct fuel' as [|fuel']; [lia|]. simpl.
      apply IH; [done|lia].
Qed.

(** Every round with a non-empty working table adds a row that was not
    there, and all rows come from [candidates]: the rounds run out. *)
Lemma with_recursive_total fuel acc work :
  NoDup acc → acc ⊆ candidates db instance →
  work ⊆ candidates db instance →
  length (candidates db instance) - length acc < fuel →
  ∃ rows, loop fuel acc work = Some rows
          ∧ NoDup rows ∧ rows ⊆ candidates db instance ∧ acc ⊆ rows.
Proof.
  revert acc work. induction fuel as [|fuel IH]; intros acc work Hnd Ha Hw Hlt.
  { lia. }
  destruct work as [|w work]; simpl.
  { by exists acc. }
  set (new := list_difference _ acc).
  assert (NoDup new) as Hnew.
  { apply NoDup_list_difference, NoDup_remove_dups. }
  assert (new ⊆ candidates db instance) as Hnewc.
  { intros r Hr. apply list_elem_of_difference in Hr as [Hr _].
    rewrite elem_of_remove_dups in Hr.
    by apply (recursive_term_candidates (w :: work)). }
  assert (NoDup (acc ++ new)) as Hnd'.
  { apply NoDup_app. split_and!; [done| |done].
    intros r Hr Hr'. by apply list_elem_of_difference in Hr' as [_ ?]. }
  assert (acc ++ new ⊆ candidates db instance) as Ha'.
  { intros r Hr. apply elem_of_app in Hr as [?|?]; auto. }
  destruct new as [|n new'] eqn:Enew.
  - exists (acc ++ []). destruct fuel; simpl; split_and!; try done.
    all: intros r ?; apply elem_of_app; by left.
  - destruct (IH (acc ++ n :: new') (n :: new')) as (rows & ? & ? & ? & Hsub);
      try done.
    + pose proof (submseteq_length _ _ (NoDup_submseteq _ _ Hnd' Ha')) as Hl.
      rewrite length_app in *. simpl in *. lia.
    + exists rows. split_and!; try done.
      intros r ?. apply Hsub, elem_of_app. by left.
Qed.

Lemma dlg_total :
  ∃ rows, dlg db instance_poll instance = Some rows
          ∧ NoDup rows ∧ rows ⊆ candidates db instance ∧ base ∈ rows.
Proof.
  destruct (with_recursive_total (dlg_fuel db) [base] [base])
    as (rows & ? & ? & ? & Hsub).
  - apply NoDup_singleton.
  - intros r ->%list_elem_of_singleton. apply list_elem_of_here.
  - intros r ->%list_elem_of_singleton. apply list_elem_of_here.
  - rewrite length_candidates. simpl. unfold dlg_fuel. lia.
  - exists rows. split_and!; try done. apply Hsub, list_elem_of_here.
Qed.
End PropagateFacts.

(** ** Every row of [dlg] is reached along users without a vote *)

Section Reached.
Variable db : DB.
Variable instance_poll : Poll.
Variable instance : Vote.

Lemma where_clause_true d w :
  where_clause db instance_poll d w = true ↔
  leader d = dlg_user_id w
  ∧ extra_condition db instance_poll d = true
  ∧ vote_count db (follower d) (dlg_poll_id w) = 0.
Proof.
  unfold where_clause.
  rewrite !andb_true_iff, !bool_decide_eq_true, vote_count_lt_1. tauto.
Qed.

Lemma recursive_term_reached work :
  Forall (reached db instance) work →
  Forall (reached db instance) (recursive_term db instance_poll work).
Proof.
  rewrite !Forall_forall. intros Hw r Hr.
  apply recursive_term_elem in Hr as (d & w & Hd & Hin & Hc & ->).
  apply where_clause_true in Hc as (Hl & _ & Hv).
  destruct (Hw _ Hin) as [Hp Hreach]. split; [done|]. right. simpl.
  rewrite Hp in Hv. destruct Hreach as [-> | (via & Hpath & Hvia)].
  - exists [follower d]. split.
    + simpl in Hl. rewrite <- Hl. by constructor.
    + by intros x ->%list_elem_of_singleton.
  - exists (follower d :: via). split.
    + constructor; [done|]. by rewrite Hl.
    + intros x [-> | ?]%elem_of_cons; auto.
Qed.

Lemma dlg_reached rows :
  dlg db instance_poll instance = Some rows → Forall (reached db instance) rows.
Proof.
  apply with_recursive_Forall.
  - apply recursive_term_reached.
  - repeat constructor.
  - repeat constructor.
Qed.

(** The rows that are written: never the voter, never a user who has a
    vote, and each with its chain of delegations. *)
Lemma selected_reached rows v :
  dlg db instance_poll instance = Some rows →
  v ∈ selected instance rows →
  vote_user v ≠ vote_user instance
  ∧ vote_poll v = vote_poll instance
  ∧ ∃ via, delegation_path db (vote_user v) via (vote_user instance)
           ∧ vote_user v ∈ via
           ∧ ∀ x, x ∈ via → vote_count db x (vote_poll instance) = 0.
Proof.
  intros Hdlg Hv. unfold selected in Hv.
  apply list_elem_of_fmap in Hv as (r & -> & Hr).
  apply list_elem_of_filter in Hr as [Hne Hr]. simpl.
  pose proof (dlg_reached _ Hdlg) as Hall. rewrite Forall_forall in Hall.
  destruct (Hall _ Hr) as [Hp [-> | (via & Hpath & Hvia)]]; [done|].
  split_and!; [done..|]. exists via. split_and!; try done.
  inversion Hpath; apply list_elem_of_here.
Qed.
End Reached.

(** ** Inserting votes *)

Lemma insert_votes_app table rows table' :
  insert_votes table rows = Some table' → table' = table ++ rows.
Proof.
  revert table. induction rows as [|r rows IH]; intros table; simpl.
  - intros [= <-]. by rewrite app_nil_r.
  - case_decide; [done|]. intros ->%IH. by rewrite <- app_assoc.
Qed.

Lemma insert_votes_unique table rows table' :
  votes_unique table → insert_votes table rows = Some table' →
  votes_unique table'.
Proof.
  unfold votes_unique. revert table.
  induction rows as [|r rows IH]; intros table Hu; simpl.
  - by intros [= <-].
  - case_decide as Hex; [done|]. apply IH.
    rewrite fmap_app. apply NoDup_app. split_and!; [done| |apply NoDup_singleton].
    intros k Hk ->%list_elem_of_singleton. apply Hex.
    apply list_elem_of_fmap in Hk as (v & [= Hu1 Hu2] & Hv).
    apply Exists_exists. exists v. by split.
Qed.

(** What a propagation run does to the database. *)
Lemma propagate_vote_outcome instance_poll instance db db' res :
  propagate_vote instance_poll instance db = (db', res) →
  ∃ rows, dlg db instance_poll instance = Some rows
    ∧ ((res = Ok ()
        ∧ db' = set_decision_vote db
                  (decision_vote db ++ selected instance rows))
       ∨ (res = Raise IntegrityError ∧ db' = db)).
Proof.
  unfold propagate_vote.
  destruct (dlg_total db instance_poll instance) as (rows & -> & _).
  intros H. exists rows. split; [done|].
  destruct (insert_votes _ _) as [votes|] eqn:E.
  - apply insert_votes_app in E as ->. left. by inversion H.
  - right. by inversion H.
Qed.

Lemma propagate_vote_unique instance_poll instance db db' res :
  votes_unique (decision_vote db) →
  propagate_vote instance_poll instance db = (db', res) →
  votes_unique (decision_vote db').
Proof.
  unfold propagate_vote. intros Hu.
  destruct (dlg db instance_poll instance) as [rows|]; [|by intros [= <- _]].
  destruct (insert_votes _ _) as [votes|] eqn:E; intros [= <- _]; [|done].
  simpl. by eapply insert_votes_unique.
Qed.

(** ** Category scope *)

Lemma filter_fst_nil (dc : list (pk * pk)) (k : pk) :
  filter (λ r, r.1 = k) dc = [] ↔ k ∉ dc.*1.
Proof.
  induction dc as [|[a b] dc IH]; simpl.
  - split; [|done]. intros _ []%elem_of_nil.
  - rewrite filter_cons. simpl. rewrite not_elem_of_cons.
    case_decide as E; subst; split; try done.
    + by intros [].
    + intros ?. split; [done|]. by apply IH.
    + intros [_ ?]. by apply IH.
Qed.

Lemma elem_of_filter_snd_fst (dc : list (pk * pk)) (k c : pk) :
  k ∈ (filter (λ r, r.2 = c) dc).*1 ↔ (k, c) ∈ dc.
Proof.
  rewrite list_elem_of_fmap. split.
  - intros ([a b] & -> & [E ?]%list_elem_of_filter). simpl in *. by subst.
  - intros ?. exists (k, c). split; [done|]. by apply list_elem_of_filter.
Qed.

Lemma elem_of_delegation_categories db d c :
  c ∈ delegation_categories db d ↔
  (delegation_pk d, c) ∈ decision_delegation_categories db.
Proof.
  unfold delegation_categories. rewrite list_elem_of_fmap. split.
  - intros ([a b] & -> & [E ?]%list_elem_of_filter). simpl in *. by subst.
  - intros ?. exists (delegation_pk d, c). split; [done|].
    by apply list_elem_of_filter.
Qed.

Lemma delegation_categories_nil db d :
  delegation_categories db d = [] ↔
  filter (λ r, r.1 = delegation_pk d) (decision_delegation_categories db) = [].
Proof.
  unfold delegation_categories. split; [apply fmap_nil_inv|by intros ->].
Qed.

Lemma extra_condition_scope db instance_poll d :
  extra_condition db instance_poll d = true ↔
  scope_matches (delegation_categories db d) (poll_category instance_poll).
Proof.
  unfold extra_condition, scope_matches.
  rewrite delegation_categories_nil.
  destruct (poll_category instance_poll) as [c|].
  - rewrite orb_true_iff, negb_true_iff, bool_decide_eq_false,
      bool_decide_eq_true, elem_of_filter_snd_fst, <- filter_fst_nil.
    split; intros [?|H]; auto.
    + right. exists c. by rewrite elem_of_delegation_categories.
    + destruct H as (c' & [= <-] & ?). right.
      by apply elem_of_delegation_categories.
  - rewrite bool_decide_eq_true. split.
    + intros H. left. destruct (filter _ _); [done|simpl in H; lia].
    + intros [-> | (c & [=] & _)]. simpl. lia.
Qed.

(** ** Claims on the propagation *)

(** C1: a follower F who has a vote for the poll when a propagation run
    starts gets no row from the run and no vote row is modified by it: the
    run only appends rows, none of them F's; and every user who receives a
    vote from the run delegates to the voter along a chain that does not
    pass through F, so a user whose every chain to the voter passes through
    F receives none. *)
Theorem propagate_vote_cutoff instance_poll instance db db' res F :
  0 < vote_count db F (vote_poll instance) →
  propagate_vote instance_poll instance db = (db', res) →
  ∃ new,
    decision_vote db' = decision_vote db ++ new
    ∧ (∀ v, v ∈ new →
         vote_user v ≠ F
         ∧ ∃ via, delegation_path db (vote_user v) via (vote_user instance)
                  ∧ F ∉ via)
    ∧ (∀ u, (∀ via, delegation_path db u via (vote_user instance) → F ∈ via) →
         u ∉ vote_user <$> new).
Proof.
  intros HF Hrun.
  apply propagate_vote_outcome in Hrun as (rows & Hdlg & Hres).
  assert (∀ v, v ∈ selected instance rows →
            vote_user v ≠ F
            ∧ ∃ via, delegation_path db (vote_user v) via (vote_user instance)
                     ∧ F ∉ via) as Hsel.
  { intros v Hv.
    destruct (selected_reached _ _ _ _ _ Hdlg Hv)
      as (_ & _ & via & Hpath & Hin & Hvia).
    assert (F ∉ via) as HFvia.
    { intros HFin. apply Hvia in HFin. lia. }
    split; [|by exists via]. intros <-. done. }
  destruct Hres as [[_ ->] | [_ ->]].
  - exists (selected instance rows). split_and!; [done|done|].
    intros u Hu (v & -> & Hv)%list_elem_of_fmap.
    destruct (Hsel _ Hv) as (_ & via & Hpath & HFvia). by apply HFvia, Hu.
  - exists []. split_and!.
    + by rewrite app_nil_r.
    + intros v []%elem_of_nil.
    + intros u _ []%elem_of_nil.
Qed.

Lemma propagate_vote_cutoff_witness :
  let db := mkDB Sample.tree []
              [mkVote Sample.dave 10 101 None; mkVote Sample.alice 10 100 None] in
  let instance := mkVote Sample.alice 10 100 None in
  ∃ new,
    decision_vote (propagate_vote Sample.poll instance db).1
    = decision_vote db ++ new
    ∧ (∀ v, v ∈ new →
         vote_user v ≠ Sample.dave
         ∧ ∃ via, delegation_path db (vote_user v) via (vote_user instance)
                  ∧ Sample.dave ∉ via)
    ∧ (∀ u, (∀ via, delegation_path db u via (vote_user instance)
                    → Sample.dave ∈ via) →
         u ∉ vote_user <$> new).
Proof.
  intros db instance.
  apply (propagate_vote_cutoff Sample.poll instance db _
           (propagate_vote Sample.poll instance db).2 Sample.dave).
  - vm_compute. lia.
  - by destruct (propagate_vote Sample.poll instance db).
Defined.

(** C3: the recursive term admits a row through a delegation, for a row of
    the working table, iff the delegation's leader is the row's user, the
    delegation's category set matches the poll (the set is empty, or the
    poll has a category and it is in the set) and the follower has no vote
    for the poll; the rows the recursive term yields are exactly those
    admitted through some delegation. *)
Theorem propagation_admits_iff_scope db instance_poll :
  (∀ d w,
     where_clause db instance_poll d w = true ↔
     leader d = dlg_user_id w
     ∧ scope_matches (delegation_categories db d) (poll_category instance_poll)
     ∧ vote_count db (follower d) (dlg_poll_id w) = 0)
  ∧ (∀ r work,
       r ∈ recursive_term db instance_poll work ↔
       ∃ d w, d ∈ decision_delegation db ∧ w ∈ work
         ∧ leader d = dlg_user_id w
         ∧ scope_matches (delegation_categories db d)
                         (poll_category instance_poll)
         ∧ vote_count db (follower d) (dlg_poll_id w) = 0
         ∧ r = mkDlg (follower d) (dlg_poll_id w) (dlg_choice_id w)
                     (Some (leader d))).
Proof.
  assert (∀ d w,
     where_clause db instance_poll d w = true ↔
     leader d = dlg_user_id w
     ∧ scope_matches (delegation_categories db d) (poll_category instance_poll)
     ∧ vote_count db (follower d) (dlg_poll_id w) = 0) as Hwhere.
  { intros d w. by rewrite where_clause_true, extra_condition_scope. }
  split; [done|]. intros r work. rewrite recursive_term_elem.
  split; intros (d & w & Hd & Hw & H); exists d, w.
  - destruct H as [H ->]. apply Hwhere in H as (? & ? & ?). done.
  - destruct H as (? & ? & ? & ->). split_and!; try done. by apply Hwhere.
Qed.

Lemma selected_length db instance rows :
  NoDup rows → rows ⊆ candidates db instance →
  length (selected instance rows) ≤ length (decision_delegation db).
Proof.
  intros Hnd Hsub. unfold selected. rewrite length_fmap.
  set (kept := filter _ rows).
  assert (NoDup kept) as Hk by by apply NoDup_filter.
  set (rest := (λ d, mkDlg (follower d) (vote_poll instance)
                           (vote_choice instance) (Some (leader d)))
               <$> decision_delegation db).
  assert (∀ r, r ∈ kept → r ∈ rest) as Hin.
  { intros r [Hne Hr]%list_elem_of_filter.
    apply Hsub in Hr. unfold candidates in Hr.
    apply elem_of_cons in Hr as [-> | ?]; done. }
  pose proof (submseteq_length _ _ (NoDup_submseteq _ _ Hk Hin)) as Hl.
  unfold rest in Hl. by rewrite length_fmap in Hl.
Qed.

(** C5: on every database, whatever its delegation graph, the recursive
    query ends: within one round per delegation and one more it reaches the
    round that brings no new row, more rounds change nothing, and the run
    returns; the result has at most one row per delegation besides the base
    row, and at most one row per delegation is written. *)
Theorem propagate_vote_terminates db instance_poll instance :
  ∃ rows,
    dlg db instance_poll instance = Some rows
    ∧ (∀ fuel, dlg_fuel db ≤ fuel →
         with_recursive db instance_poll fuel
           [base_row instance] [base_row instance] = Some rows)
    ∧ length rows ≤ S (length (decision_delegation db))
    ∧ length (selected instance rows) ≤ length (decision_delegation db)
    ∧ ∃ db' res, propagate_vote instance_poll instance db = (db', res)
                 ∧ (res = Ok () ∨ res = Raise IntegrityError).
Proof.
  destruct (dlg_total db instance_poll instance) as (rows & Hdlg & Hnd & Hsub & _).
  exists rows. split_and!; [done| | | |].
  - intros fuel Hle. by eapply with_recursive_mono.
  - pose proof (submseteq_length _ _ (NoDup_submseteq _ _ Hnd Hsub)) as Hl.
    by rewrite length_candidates in Hl.
  - by eapply selected_length.
  - destruct (propagate_vote instance_poll instance db) as [db' res] eqn:E.
    exists db', res. split; [done|].
    apply propagate_vote_outcome in E as (? & _ & [[-> _] | [-> _]]); auto.
Qed.

Module CycleExamples.
Import Sample.

(** alice votes: carol follows alice, bob follows carol; alice, who has
    voted, is not entered again. *)
Example alice_votes :
  (set_vote poll alice (ChoiceObj yes) None true cycle_db).1.(decision_vote)
  = [mkVote alice 10 100 None; mkVote carol 10 100 (Some alice);
     mkVote bob 10 100 (Some carol)].
Proof. vm_compute. reflexivity. Qed.

Example bob_votes :
  (set_vote poll bob (ChoiceObj yes) None true cycle_db).1.(decision_vote)
  = [mkVote bob 10 100 None; mkVote alice 10 100 (Some bob);
     mkVote carol 10 100 (Some alice)].
Proof. vm_compute. reflexivity. Qed.

Example carol_votes :
  (set_vote poll carol (ChoiceObj yes) None true cycle_db).1.(decision_vote)
  = [mkVote carol 10 100 None; mkVote bob 10 100 (Some carol);
     mkVote alice 10 100 (Some bob)].
Proof. vm_compute. reflexivity. Qed.

(** Without a vote of the voter in the table the query goes round the
    cycle once and stops at the row it already holds. *)
Example cycle_rows :
  dlg cycle_db poll (mkVote alice 10 100 None)
  = Some [mkDlg alice 10 100 None; mkDlg carol 10 100 (Some alice);
          mkDlg bob 10 100 (Some carol); mkDlg alice 10 100 (Some bob)].
Proof. vm_compute. reflexivity. Qed.
End CycleExamples.

Module ScenarioExamples.
Import Sample.

(** alice votes yes: bob and carol inherit from alice, dave from bob. *)
Example tree_votes :
  set_vote poll alice (ChoiceObj yes) None true (mkDB tree [] [])
  = (mkDB tree []
       [mkVote alice 10 100 None; mkVote bob 10 100 (Some alice);
        mkVote carol 10 100 (Some alice); mkVote dave 10 100 (Some bob)],
     Ok (mkVote alice 10 100 None)).
Proof. vm_compute. reflexivity. Qed.

(** dave has voted no before: his vote stays. *)
Example tree_votes_dave_voted :
  (set_vote poll alice (ChoiceObj yes) None true
     (mkDB tree [] [mkVote dave 10 101 None])).1.(decision_vote)
  = [mkVote dave 10 101 None; mkVote alice 10 100 None;
     mkVote bob 10 100 (Some alice); mkVote carol 10 100 (Some alice)].
Proof. vm_compute. reflexivity. Qed.

(** bob's delegation is scoped to finance, the poll is a health poll. *)
Example scoped_delegation :
  (set_vote health_poll alice (ChoiceObj health_yes) None true
     (mkDB [mkDelegation 1 bob alice] [(1%Z, finance)] [])).1.(decision_vote)
  = [mkVote alice 12 120 None].
Proof. vm_compute. reflexivity. Qed.
End ScenarioExamples.

(** C4: bob and carol delegate to alice, dave delegates to both bob and
    carol, nobody has voted, alice votes. The recursive query holds two rows
    for dave, one with delegate bob and one with delegate carol; the INSERT
    of the two breaks unique_together = ('user', 'poll'), so the statement
    fails, [set_vote] raises IntegrityError and only alice's vote is in the
    table. *)
Theorem propagate_vote_diamond :
  dlg (mkDB Sample.diamond [] [mkVote Sample.alice 10 100 None])
      Sample.poll (mkVote Sample.alice 10 100 None)
  = Some [mkDlg Sample.alice 10 100 None;
          mkDlg Sample.bob 10 100 (Some Sample.alice);
          mkDlg Sample.carol 10 100 (Some Sample.alice);
          mkDlg Sample.dave 10 100 (Some Sample.bob);
          mkDlg Sample.dave 10 100 (Some Sample.carol)]
  ∧ set_vote Sample.poll Sample.alice (ChoiceObj Sample.yes) None true
      (mkDB Sample.diamond [] [])
    = (mkDB Sample.diamond [] [mkVote Sample.alice 10 100 None],
       Raise IntegrityError).
Proof. split; vm_compute; reflexivity. Qed.

(** ** [set_vote] *)

Lemma votes_create_outcome self vote db db' res :
  votes_create self vote db = (db', res) →
  res = Ok vote ∨ res = Raise IntegrityError.
Proof.
  unfold votes_create. unfold_M.
  destruct (insert_votes _ _); simpl; [|intros [= _ <-]; auto].
  destruct (propagate_vote _ _ _) as [db1 r1] eqn:E.
  apply propagate_vote_outcome in E as (? & _ & [[-> _] | [-> _]]);
    intros [= _ <-]; auto.
Qed.

Lemma Vote_save_outcome self old vote db db' res :
  Vote_save self old vote db = (db', res) →
  res = Ok vote ∨ res = Raise IntegrityError.
Proof.
  unfold Vote_save. unfold_M.
  destruct (propagate_vote _ _ _) as [db1 r1] eqn:E.
  apply propagate_vote_outcome in E as (? & _ & [[-> _] | [-> _]]);
    intros [= _ <-]; auto.
Qed.

Lemma set_vote_closed self user choice delegate secure db :
  is_open self = false →
  set_vote self user choice delegate secure db = (db, Raise PollClosed).
Proof. intros H. unfold set_vote. unfold_M. by rewrite H. Qed.

Lemma set_vote_invalid self user choice delegate secure db :
  is_open self = true → ¬ choice_of_poll choice self →
  set_vote self user choice delegate secure db = (db, Raise InvalidChoice).
Proof.
  intros H Hc. unfold set_vote. unfold_M. rewrite H. simpl.
  destruct choice as [c|]; [|done].
  destruct (decide (choice_poll c ≠ poll_pk self)) as [E|E]; simpl; [done|].
  destruct Hc. exists c. split; [done|]. by apply dec_stable.
Qed.

(** What is left of [set_vote] once the poll is open and the choice valid. *)
Lemma set_vote_valid self user c delegate secure db :
  is_open self = true → choice_poll c = poll_pk self →
  set_vote self user (ChoiceObj c) delegate secure db
  = match
      match secure, delegate with
      | true, Some l =>
          match objects_get (delegation_rows self l user db) with
          | Ok _ => None
          | Raise DoesNotExist => Some PyException
          | Raise e => Some e
          end
      | _, _ => None
      end
    with
    | Some e => (db, Raise e)
    | None =>
        match votes_get self user db with
        | Ok vote =>
            match secure, delegate, vote_delegate vote with
            | true, Some _, None => (db, Raise PyException)
            | _, _, _ =>
                Vote_save self vote
                  (mkVote (vote_user vote) (vote_poll vote) (choice_pk c)
                          delegate) db
            end
        | Raise DoesNotExist =>
            votes_create self (mkVote user (poll_pk self) (choice_pk c) delegate) db
        | Raise e => (db, Raise e)
        end
    end.
Proof.
  intros H Hc. unfold set_vote. unfold_M. rewrite H. simpl.
  destruct (decide (choice_poll c ≠ poll_pk self)) as [E|E]; simpl; [done|].
  destruct secure, delegate as [l|]; simpl;
    try (destruct (objects_get (delegation_rows self l user db)) as [d|[]];
         simpl);
    try done;
    destruct (votes_get self user db) as [vote|[]]; simpl; try done;
    destruct (vote_delegate vote); simpl; done.
Qed.

(** ** Lookups under the unique constraints *)

Lemma filter_unique {A K} (key : A → K) (P : A → Prop)
    `{!∀ x, Decision (P x)} (l : list A) :
  NoDup (key <$> l) → (∀ x y, P x → P y → key x = key y) →
  length (filter P l) ≤ 1.
Proof.
  intros Hnd Hkey. induction l as [|a l IH]; simpl; [lia|].
  apply NoDup_cons in Hnd as [Hnotin Hnd]. rewrite filter_cons.
  case_decide as Ha; [|by apply IH]. simpl.
  assert (filter P l = []) as ->; [|simpl; lia].
  apply elem_of_nil_inv. intros x [Hx Hin]%list_elem_of_filter.
  apply Hnotin. rewrite (Hkey a x Ha Hx). by apply list_elem_of_fmap_2.
Qed.

Lemma objects_get_unique {A} (l : list A) (x : A) :
  length l ≤ 1 → x ∈ l → objects_get l = Ok x.
Proof.
  destruct l as [|y [|z l]]; simpl; intros Hl Hx.
  - by apply elem_of_nil in Hx.
  - by apply list_elem_of_singleton in Hx as ->.
  - lia.
Qed.

Lemma objects_get_Ok {A} (l : list A) (x : A) :
  objects_get l = Ok x ↔ l = [x].
Proof.
  destruct l as [|y [|z l]]; simpl; split; try done.
  - by intros [= ->].
  - by intros [= ->].
Qed.

Lemma objects_get_DoesNotExist {A} (l : list A) :
  objects_get l = Raise DoesNotExist ↔ l = [].
Proof. destruct l as [|y [|z l]]; simpl; split; done. Qed.

Lemma votes_get_unique self user db v :
  votes_unique (decision_vote db) →
  v ∈ decision_vote db → vote_user v = user → vote_poll v = poll_pk self →
  votes_get self user db = Ok v.
Proof.
  intros Hu Hin Hv Hp. unfold votes_get. apply objects_get_unique.
  - apply (filter_unique (λ v, (vote_user v, vote_poll v))); [done|].
    intros x y [-> ->] [-> ->]. done.
  - by apply list_elem_of_filter.
Qed.

Lemma votes_get_Ok self user db v :
  votes_get self user db = Ok v →
  v ∈ decision_vote db ∧ vote_user v = user ∧ vote_poll v = poll_pk self.
Proof.
  unfold votes_get. intros H%objects_get_Ok.
  assert (v ∈ filter (λ v, vote_poll v = poll_pk self ∧ vote_user v = user)
                     (decision_vote db)) as Hin.
  { rewrite H. apply list_elem_of_here. }
  apply list_elem_of_filter in Hin as [[? ?] ?]. done.
Qed.

Lemma votes_get_DoesNotExist self user db :
  votes_get self user db = Raise DoesNotExist ↔
  ∀ v, v ∈ decision_vote db →
       ¬ (vote_user v = user ∧ vote_poll v = poll_pk self).
Proof.
  unfold votes_get. rewrite objects_get_DoesNotExist. split.
  - intros H v Hin [Hu Hp].
    assert (v ∈ filter (λ v, vote_poll v = poll_pk self ∧ vote_user v = user)
                       (decision_vote db)) as Hf
      by by apply list_elem_of_filter.
    rewrite H in Hf. by apply elem_of_nil in Hf.
  - intros H. apply elem_of_nil_inv.
    intros v [[Hp Hu] Hin]%list_elem_of_filter. by apply (H v).
Qed.

(** ** The authorization query *)

Lemma delegation_rows_elem self delegate user db d :
  d ∈ delegation_rows self delegate user db ↔
  d ∈ decision_delegation db
  ∧ leader d = delegate ∧ follower d = user
  ∧ scope_matches (delegation_categories db d) (poll_category self).
Proof.
  unfold delegation_rows. rewrite list_elem_of_bind. unfold scope_matches.
  setoid_rewrite delegation_categories_nil.
  setoid_rewrite elem_of_delegation_categories. split.
  - intros (d0 & Hd & [[Hl Hf] Hin]%list_elem_of_filter).
    destruct (filter _ (decision_delegation_categories db)) as [|r rs] eqn:E.
    + apply list_elem_of_singleton in Hd as ->. auto.
    + apply list_elem_of_bind in Hd as ([a c] & Hd & Hr).
      case_decide as Hc; [|by apply elem_of_nil in Hd].
      apply list_elem_of_singleton in Hd as ->. split_and!; try done.
      right. exists c. split; [done|].
      rewrite <- E in Hr. apply list_elem_of_filter in Hr as [Ha Hr].
      simpl in Ha. by subst.
  - intros (Hin & Hl & Hf & Hs). exists d. split.
    2:{ by apply list_elem_of_filter. }
    destruct Hs as [-> | (c & Hc & Hdc)]; [apply list_elem_of_here|].
    assert ((delegation_pk d, c)
            ∈ filter (λ r, r.1 = delegation_pk d)
                     (decision_delegation_categories db)) as Hr
      by by apply list_elem_of_filter.
    destruct (filter _ (decision_delegation_categories db)) as [|r rs] eqn:E.
    { by apply elem_of_nil in Hr. }
    apply list_elem_of_bind. exists (delegation_pk d, c). split; [|done].
    simpl. rewrite Hc. case_decide; [apply list_elem_of_here|done].
Qed.

Lemma delegation_rows_nil self delegate user db :
  delegation_rows self delegate user db = [] ↔
  ¬ authorized self delegate user db.
Proof.
  unfold authorized. split.
  - intros H (d & Hd). apply delegation_rows_elem in Hd.
    rewrite H in Hd. by apply elem_of_nil in Hd.
  - intros H. apply elem_of_nil_inv. intros d Hd%delegation_rows_elem.
    apply H. by exists d.
Qed.

Lemma category_rows_length (dc : list (pk * pk)) (k : pk) (pc : option pk)
    (d : Delegation) :
  NoDup dc →
  length (r ← filter (λ r, r.1 = k) dc;
          if decide (Some r.2 = pc) then [d] else []) ≤ 1.
Proof.
  induction dc as [|[a b] dc IH]; intros Hnd; simpl; [lia|].
  apply NoDup_cons in Hnd as [Hnotin Hnd]. rewrite filter_cons. simpl.
  case_decide as Ha; [|by apply IH]. subst a. simpl.
  case_decide as Hb; [|by apply IH]. simpl.
  match goal with |- S (length ?rest) ≤ 1 => assert (rest = []) as -> end;
    [|simpl; lia].
  apply elem_of_nil_inv. intros x ([a c] & Hx & Hr)%list_elem_of_bind.
  apply list_elem_of_filter in Hr as [Hk Hr]. simpl in *. subst a.
  case_decide as Hc; [|by apply elem_of_nil in Hx].
  apply Hnotin. rewrite <- Hc in Hb. by injection Hb as ->.
Qed.

Lemma delegation_rows_length self delegate user db :
  delegations_unique db →
  length (delegation_rows self delegate user db) ≤ 1.
Proof.
  intros [Hds Hdc]. unfold delegation_rows.
  pose proof (filter_unique (λ d, (leader d, follower d))
                (λ d, leader d = delegate ∧ follower d = user)
                (decision_delegation db) Hds) as Hlen.
  destruct (filter _ (decision_delegation db)) as [|d [|d' ds]].
  - simpl. lia.
  - simpl. rewrite app_nil_r.
    pose proof (category_rows_length _ (delegation_pk d) (poll_category self)
                  d Hdc) as Hc.
    destruct (filter _ (decision_delegation_categories db)); simpl; [lia|done].
  - simpl in Hlen. assert (2 ≤ 1); [|lia].
    etrans; [|apply Hlen]. { lia. }
    intros x y [-> ->] [-> ->]. done.
Qed.

(** ** The uniqueness of votes is kept *)

Lemma votes_create_unique self vote db :
  votes_unique (decision_vote db) →
  votes_unique (decision_vote (votes_create self vote db).1).
Proof.
  intros Hu. unfold votes_create. unfold_M.
  destruct (insert_votes _ _) as [votes|] eqn:E; simpl; [|done].
  destruct (propagate_vote _ _ _) as [db1 r1] eqn:Ep.
  apply propagate_vote_unique in Ep.
  - by destruct r1.
  - simpl. by eapply insert_votes_unique.
Qed.

Lemma Vote_save_unique self old vote db :
  same_user_poll vote old →
  votes_unique (decision_vote db) →
  votes_unique (decision_vote (Vote_save self old vote db).1).
Proof.
  intros [Hsu Hsp] Hu. unfold Vote_save. unfold_M.
  destruct (propagate_vote _ _ _) as [db1 r1] eqn:Ep.
  apply propagate_vote_unique in Ep.
  - by destruct r1.
  - simpl. unfold votes_unique in *. rewrite <- list_fmap_compose.
    erewrite list_fmap_ext; [done|]. intros i v _. simpl.
    case_decide as Hs; [|done]. destruct Hs as [-> ->]. by rewrite Hsu, Hsp.
Qed.

Lemma set_vote_unique self user choice delegate secure db :
  votes_unique (decision_vote db) →
  votes_unique (decision_vote (set_vote self user choice delegate secure db).1).
Proof.
  intros Hu. destruct (is_open self) eqn:Ho.
  2:{ by rewrite set_vote_closed. }
  destruct (decide (choice_of_poll choice self)) as [(c & -> & Hc) | Hn].
  2:{ by rewrite set_vote_invalid. }
  rewrite set_vote_valid by done.
  destruct (match secure with true => _ | false => _ end); [done|].
  destruct (votes_get self user db) as [vote|e].
  - assert (votes_unique
              (decision_vote
                 (Vote_save self vote
                    (mkVote (vote_user vote) (vote_poll vote) (choice_pk c)
                            delegate) db).1)) as Hs
      by by apply Vote_save_unique.
    destruct secure, delegate, (vote_delegate vote); done.
  - destruct e; try done. by apply votes_create_unique.
Qed.

(** ** Claims on [set_vote] *)

Lemma objects_get_errors {A} (l : list A) e :
  objects_get l = Raise e → e = DoesNotExist ∨ e = MultipleObjectsReturned.
Proof. destruct l as [|y [|z l]]; simpl; intros [= <-]; auto. Qed.

Lemma votes_get_errors self user db e :
  votes_get self user db = Raise e →
  e = DoesNotExist ∨ e = MultipleObjectsReturned.
Proof. apply objects_get_errors. Qed.

(** Past the two checks only these exceptions are left. *)
Lemma set_vote_valid_errors self user c delegate secure db e :
  is_open self = true → choice_poll c = poll_pk self →
  (set_vote self user (ChoiceObj c) delegate secure db).2 = Raise e →
  e = PyException ∨ e = MultipleObjectsReturned ∨ e = IntegrityError.
Proof.
  intros Ho Hc. rewrite set_vote_valid by done.
  assert (∀ old vote,
            (Vote_save self old vote db).2 = Raise e → e = IntegrityError)
    as Hsave.
  { intros old vote H.
    destruct (Vote_save self old vote db) as [db1 r1] eqn:E. simpl in H.
    apply Vote_save_outcome in E as [-> | ->]; congruence. }
  assert (∀ vote, (votes_create self vote db).2 = Raise e → e = IntegrityError)
    as Hcreate.
  { intros vote H.
    destruct (votes_create self vote db) as [db1 r1] eqn:E. simpl in H.
    apply votes_create_outcome in E as [-> | ->]; congruence. }
  assert (match votes_get self user db with
          | Ok vote =>
              match secure, delegate, vote_delegate vote with
              | true, Some _, None => (db, Raise PyException)
              | _, _, _ =>
                  Vote_save self vote
                    (mkVote (vote_user vote) (vote_poll vote) (choice_pk c)
                            delegate) db
              end
          | Raise DoesNotExist =>
              votes_create self
                (mkVote user (poll_pk self) (choice_pk c) delegate) db
          | Raise e => (db, Raise e)
          end.2 = Raise e →
          e = PyException ∨ e = MultipleObjectsReturned ∨ e = IntegrityError)
    as Hrest.
  { destruct (votes_get self user db) as [vote|e'] eqn:Eg.
    - destruct secure, delegate, (vote_delegate vote); simpl;
        try (intros ?%Hsave; auto); intros [= <-]; auto.
    - apply objects_get_errors in Eg as [-> | ->]; simpl.
      + intros ?%Hcreate; auto.
      + intros [= <-]; auto. }
  destruct secure, delegate as [l|]; try done.
  destruct (objects_get (delegation_rows self l user db)) as [d|e'] eqn:Eg;
    [done|].
  apply objects_get_errors in Eg as [-> | ->]; simpl; intros [= <-]; auto.
Qed.

(** C8: a closed poll makes [set_vote] raise PollClosed and an open poll
    with a choice that is not a choice of the poll makes it raise
    InvalidChoice, the database staying as it was; with an open poll and a
    choice of the poll, neither exception is raised. *)
Theorem set_vote_checks self user choice delegate secure db :
  (is_open self = false →
   set_vote self user choice delegate secure db = (db, Raise PollClosed))
  ∧ (is_open self = true → ¬ choice_of_poll choice self →
     set_vote self user choice delegate secure db = (db, Raise InvalidChoice))
  ∧ (is_open self = true → choice_of_poll choice self →
     ∀ e, (set_vote self user choice delegate secure db).2 = Raise e →
          e ≠ PollClosed ∧ e ≠ InvalidChoice).
Proof.
  split_and!.
  - apply set_vote_closed.
  - apply set_vote_invalid.
  - intros Ho (c & -> & Hc) e He.
    apply set_vote_valid_errors in He as [-> | [-> | ->]]; done.
Qed.

Lemma set_vote_checks_witness :
  set_vote Sample.closed_poll Sample.alice (ChoiceObj (mkChoice 110 11))
    None true (mkDB Sample.tree [] [])
  = (mkDB Sample.tree [] [], Raise PollClosed)
  ∧ set_vote Sample.poll Sample.alice (ChoiceObj Sample.health_yes)
      None true (mkDB Sample.tree [] [])
    = (mkDB Sample.tree [] [], Raise InvalidChoice).
Proof.
  split.
  - apply (set_vote_checks Sample.closed_poll). reflexivity.
  - apply (set_vote_checks Sample.poll); [reflexivity|].
    intros (c & [= <-] & Hc). vm_compute in Hc. discriminate.
Defined.

(** A secured delegated submission for a user who has a direct vote fails,
    whatever the rest, and writes nothing. *)
Lemma set_vote_secure_direct self user choice l db v :
  v ∈ decision_vote db → vote_user v = user → vote_poll v = poll_pk self →
  vote_delegate v = None →
  ∃ e, set_vote self user choice (Some l) true db = (db, Raise e).
Proof.
  intros Hin Hu Hp Hd. destruct (is_open self) eqn:Ho.
  2:{ exists PollClosed. by apply set_vote_closed. }
  destruct (decide (choice_of_poll choice self)) as [(c & -> & Hc) | Hn].
  2:{ exists InvalidChoice. by apply set_vote_invalid. }
  rewrite set_vote_valid by done.
  destruct (objects_get (delegation_rows self l user db)) as [d|e].
  2:{ destruct e; eauto. }
  destruct (votes_get self user db) as [vote|e] eqn:Eg.
  - apply objects_get_Ok in Eg.
    assert (v ∈ [vote]) as ->%list_elem_of_singleton.
    { rewrite <- Eg. by apply list_elem_of_filter. }
    rewrite Hd. eauto.
  - destruct e; eauto.
    by destruct (proj1 (votes_get_DoesNotExist self user db) Eg v Hin).
Qed.

(** C2, as stated, fails: with [secure] false the submission with a
    delegate overwrites bob's direct vote with an inherited one. *)
Lemma set_vote_insecure_overwrites_direct :
  set_vote Sample.poll Sample.bob (ChoiceObj Sample.yes)
    (Some Sample.alice) false
    (mkDB [] [] [mkVote Sample.bob 10 101 None])
  = (mkDB [] [] [mkVote Sample.bob 10 100 (Some Sample.alice)],
     Ok (mkVote Sample.bob 10 100 (Some Sample.alice))).
Proof. vm_compute. reflexivity. Qed.

(** C2, amended: when the user has a vote for the poll with a null
    delegate, no call of [set_vote] with [secure] true and a delegate
    succeeds: it raises and leaves the database, so that vote, as it was. *)
Theorem set_vote_secure_keeps_direct self user choice l db v :
  v ∈ decision_vote db → vote_user v = user → vote_poll v = poll_pk self →
  vote_delegate v = None →
  ∃ e, set_vote self user choice (Some l) true db = (db, Raise e).
Proof. apply set_vote_secure_direct. Qed.

Lemma set_vote_secure_keeps_direct_witness :
  ∃ e, set_vote Sample.poll Sample.bob (ChoiceObj Sample.yes)
         (Some Sample.alice) true
         (mkDB Sample.tree [] [mkVote Sample.bob 10 101 None])
       = (mkDB Sample.tree [] [mkVote Sample.bob 10 101 None], Raise e).
Proof.
  apply (set_vote_secure_keeps_direct _ _ _ _ _ (mkVote Sample.bob 10 101 None));
    [apply list_elem_of_here|reflexivity..].
Defined.

(** C6, as stated, fails: on a closed poll the secured delegated submission
    for bob, who has a direct vote, raises PollClosed, not the exception of
    the protection of direct votes. *)
Lemma set_vote_direct_closed_poll :
  set_vote Sample.closed_poll Sample.bob (ChoiceObj (mkChoice 110 11))
    (Some Sample.alice) true
    (mkDB Sample.tree [] [mkVote Sample.bob 11 111 None])
  = (mkDB Sample.tree [] [mkVote Sample.bob 11 111 None], Raise PollClosed).
Proof. vm_compute. reflexivity. Qed.

(** C6, amended: on an open poll, with a choice of the poll and a database
    that meets its unique constraints on delegations, a call with [secure]
    true and a delegate for a user whose vote has a null delegate raises the
    builtin Exception and leaves the database as it was. *)
Theorem set_vote_direct_vote_protected self user c l db v :
  is_open self = true → choice_poll c = poll_pk self →
  delegations_unique db →
  votes_get self user db = Ok v → vote_delegate v = None →
  set_vote self user (ChoiceObj c) (Some l) true db = (db, Raise PyException).
Proof.
  intros Ho Hc Hdu Hv Hd. rewrite set_vote_valid by done.
  pose proof (delegation_rows_length self l user db Hdu) as Hlen.
  destruct (delegation_rows self l user db) as [|d [|d' ds]]; simpl in *.
  - done.
  - by rewrite Hv, Hd.
  - lia.
Qed.

Lemma set_vote_direct_vote_protected_witness :
  set_vote Sample.poll Sample.bob (ChoiceObj Sample.yes)
    (Some Sample.alice) true
    (mkDB Sample.tree [] [mkVote Sample.bob 10 101 None])
  = (mkDB Sample.tree [] [mkVote Sample.bob 10 101 None], Raise PyException).
Proof.
  apply (set_vote_direct_vote_protected _ _ _ _ _ (mkVote Sample.bob 10 101 None));
    try reflexivity.
  split; apply (bool_decide_unpack _); vm_compute; exact I.
Defined.




(** A delegation scoped to finance does not authorize a vote on a health
    poll; one without categories does, and the inherited vote is replaced. *)
Example scoped_delegation_unauthorized :
  set_vote Sample.health_poll Sample.bob (ChoiceObj Sample.health_yes)
    (Some Sample.alice) true
    (mkDB [mkDelegation 1 Sample.bob Sample.alice] [(1%Z, Sample.finance)]
          [mkVote Sample.bob 12 121 (Some Sample.carol)])
  = (mkDB [mkDelegation 1 Sample.bob Sample.alice] [(1%Z, Sample.finance)]
          [mkVote Sample.bob 12 121 (Some Sample.carol)],
     Raise PyException).
Proof. vm_compute. reflexivity. Qed.

Example global_delegation_authorized :
  set_vote Sample.health_poll Sample.bob (ChoiceObj Sample.health_yes)
    (Some Sample.alice) true
    (mkDB [mkDelegation 1 Sample.bob Sample.alice] []
          [mkVote Sample.bob 12 121 (Some Sample.carol)])
  = (mkDB [mkDelegation 1 Sample.bob Sample.alice] []
          [mkVote Sample.bob 12 120 (Some Sample.alice)],
     Ok (mkVote Sample.bob 12 120 (Some Sample.alice))).
Proof. vm_compute. reflexivity. Qed.

(** ** Claims on [get_user_choice] and on delegations *)

(** C10: on a table with at most one vote for every user and poll,
    [get_user_choice] returns the choice of the user's vote for the poll
    when there is one, and returns None, raising nothing, when there is
    none; the database is not changed. *)
Theorem get_user_choice_spec self user db :
  votes_unique (decision_vote db) →
  (∀ v, v ∈ decision_vote db → vote_user v = user →
        vote_poll v = poll_pk self →
        get_user_choice self user db = (db, Ok (Some (vote_choice v))))
  ∧ ((∀ v, v ∈ decision_vote db →
           ¬ (vote_user v = user ∧ vote_poll v = poll_pk self)) →
     get_user_choice self user db = (db, Ok None)).
Proof.
  intros Hu. unfold get_user_choice, get_vote. unfold_M. split.
  - intros v Hin Hv Hp. by rewrite (votes_get_unique self user db v).
  - intros Hno%votes_get_DoesNotExist. by rewrite Hno.
Qed.

Lemma get_user_choice_spec_witness :
  let db := mkDB Sample.tree []
              [mkVote Sample.dave 10 101 None; mkVote Sample.alice 10 100 None] in
  get_user_choice Sample.poll Sample.alice db = (db, Ok (Some 100%Z))
  ∧ get_user_choice Sample.poll Sample.bob db = (db, Ok None).
Proof.
  intros db.
  assert (votes_unique (decision_vote db)) as Hu.
  { apply (bool_decide_unpack _). vm_compute. exact I. }
  split.
  - apply (proj1 (get_user_choice_spec Sample.poll Sample.alice db Hu)
             (mkVote Sample.alice 10 100 None)); try reflexivity.
    apply (bool_decide_unpack _). vm_compute. exact I.
  - apply (proj2 (get_user_choice_spec Sample.poll Sample.bob db Hu)).
    intros v Hv [Hb _]. revert Hv.
    intros [-> | [-> | []%elem_of_nil]%elem_of_cons]%elem_of_cons;
      vm_compute in Hb; discriminate.
Defined.

(** C9: saving a delegation whose follower is its leader raises
    CantDelegateToSelf before anything is written, and a save leaves no
    delegation with follower = leader in a table that had none. *)
Theorem prevent_delegation_to_self_rejects instance db :
  Forall (λ d, follower d ≠ leader d) (decision_delegation db) →
  (leader instance = follower instance →
   Delegation_save instance db = (db, Raise CantDelegateToSelf))
  ∧ Forall (λ d, follower d ≠ leader d)
           (decision_delegation (Delegation_save instance db).1).
Proof.
  intros Hall. unfold Delegation_save, prevent_delegation_to_self. unfold_M.
  destruct (decide (leader instance = follower instance)) as [E|E]; simpl.
  { done. }
  split; [done|]. unfold Delegation_write.
  destruct (decide (Exists _ _)); [done|].
  destruct (decide (Exists _ _)); simpl.
  - apply Forall_fmap. eapply Forall_impl; [done|]. intros d Hd. simpl.
    case_decide; [|done]. by intros ?.
  - apply Forall_app. split; [done|]. constructor; [|done]. by intros ?.
Qed.

Lemma prevent_delegation_to_self_rejects_witness :
  Delegation_save (mkDelegation 9 Sample.alice Sample.alice)
    (mkDB Sample.tree [] [])
  = (mkDB Sample.tree [] [], Raise CantDelegateToSelf)
  ∧ Forall (λ d, follower d ≠ leader d)
      (decision_delegation
         (Delegation_save (mkDelegation 9 Sample.alice Sample.alice)
            (mkDB Sample.tree [] [])).1).
Proof.
  assert (Forall (λ d, follower d ≠ leader d)
            (decision_delegation (mkDB Sample.tree [] []))) as Hall.
  { apply (bool_decide_unpack _). vm_compute. exact I. }
  split.
  - apply (proj1 (prevent_delegation_to_self_rejects
                    (mkDelegation 9 Sample.alice Sample.alice) _ Hall)).
    reflexivity.
  - apply (proj2 (prevent_delegation_to_self_rejects
                    (mkDelegation 9 Sample.alice Sample.alice) _ Hall)).
Defined.

(** ** The recursive query as a least fixed point *)

Section PropagateFixpoint.
Variable db : DB.
Variable instance_poll : Poll.
Variable instance : Vote.

Local Abbreviation step := (recursive_term db instance_poll).
Local Abbreviation loop := (with_recursive db instance_poll).
Local Abbreviation base := (base_row instance).

Lemma recursive_term_mono work work' :
  work ⊆ work' → step work ⊆ step work'.
Proof.
  intros Hsub r (d & w & Hd & Hw & Hc & ->)%recursive_term_elem.
  apply recursive_term_elem. exists d, w. auto.
Qed.

Lemma recursive_term_row r work :
  r ∈ step work ↔ ∃ w, w ∈ work ∧ r ∈ step [w].
Proof.
  rewrite recursive_term_elem. split.
  - intros (d & w & Hd & Hw & Hc & ->). exists w. split; [done|].
    apply recursive_term_elem. exists d, w.
    split_and!; try done. apply list_elem_of_here.
  - intros (w & Hw & (d & w' & Hd & ->%list_elem_of_singleton & Hc & ->)
                     %recursive_term_elem).
    by exists d, w.
Qed.

(** The rows that have left the working table have been expanded. *)
Lemma with_recursive_closed fuel acc work rows :
  work ⊆ acc →
  (∀ r w, w ∈ acc → w ∉ work → r ∈ step [w] → r ∈ acc) →
  loop fuel acc work = Some rows →
  ∀ r, r ∈ step rows → r ∈ rows.
Proof.
  revert acc work. induction fuel as [|fuel IH]; intros acc work Hsub Hinv.
  - destruct work; simpl; [|done]. intros [= <-] r (w & Hw & Hr)%recursive_term_row.
    apply (Hinv r w); [done| |done]. by intros ?%elem_of_nil.
  - destruct work as [|w0 work]; simpl.
    + intros [= <-] r (w & Hw & Hr)%recursive_term_row.
      apply (Hinv r w); [done| |done]. by intros ?%elem_of_nil.
    + set (new := list_difference _ acc). apply IH.
      * intros r ?. apply elem_of_app. by right.
      * intros r w Hw Hnot Hr. apply elem_of_app.
        apply elem_of_app in Hw as [Hw | Hw]; [|done].
        destruct (decide (r ∈ acc)) as [?|Hnin]; [by left|].
        destruct (decide (w ∈ w0 :: work)) as [Hin|Hout].
        -- right. apply list_elem_of_difference. split; [|done].
           apply elem_of_remove_dups, recursive_term_row. by exists w.
        -- left. by apply (Hinv r w).
Qed.

(** Every row is the base row or comes from the recursive term. *)
Lemma with_recursive_generated fuel acc work rows :
  work ⊆ acc →
  (∀ r, r ∈ acc → r = base ∨ r ∈ step acc) →
  loop fuel acc work = Some rows →
  ∀ r, r ∈ rows → r = base ∨ r ∈ step rows.
Proof.
  revert acc work. induction fuel as [|fuel IH]; intros acc work Hsub Hinv.
  - destruct work; simpl; [|done]. by intros [= <-].
  - destruct work as [|w0 work]; simpl; [by intros [= <-]|].
    set (new := list_difference _ acc). apply IH.
    + intros r ?. apply elem_of_app. by right.
    + assert (step acc ⊆ step (acc ++ new)) as Hmono.
      { apply recursive_term_mono. intros r ?. apply elem_of_app. by left. }
      intros r [Hr | Hr]%elem_of_app.
      * destruct (Hinv r Hr) as [-> | ?]; [by left|]. right. by apply Hmono.
      * right. apply Hmono. apply list_elem_of_difference in Hr as [Hr _].
        rewrite elem_of_remove_dups in Hr.
        by apply (recursive_term_mono (w0 :: work)).
Qed.

Lemma dlg_lfp :
  ∃ rows,
    dlg db instance_poll instance = Some rows
    ∧ (∀ r, r ∈ rows ↔ r = base ∨ r ∈ step rows)
    ∧ (∀ closed : list dlg_row,
         base ∈ closed → (∀ r, r ∈ step closed → r ∈ closed) →
         rows ⊆ closed).
Proof.
  destruct (dlg_total db instance_poll instance) as (rows & Hdlg & _ & _ & Hb).
  exists rows. split_and!; [done| |].
  - intros r. split.
    + revert r. eapply with_recursive_generated; [|  |exact Hdlg]; [done|].
      intros r ->%list_elem_of_singleton. by left.
    + intros [-> | Hr]; [done|]. revert r Hr.
      eapply with_recursive_closed; [| |exact Hdlg]; [done|].
      intros r w Hw Hnot. done.
  - intros closed Hbase Hclosed.
    assert (Forall (λ r, r ∈ closed) rows) as Hall.
    { eapply with_recursive_Forall; [| | |exact Hdlg].
      - intros work Hw. apply Forall_forall. intros r Hr. apply Hclosed.
        revert r Hr. apply recursive_term_mono.
        intros w ?. by eapply Forall_forall in Hw.
      - by repeat constructor.
      - by repeat constructor. }
    intros r Hr. by eapply Forall_forall in Hall.
Qed.

(** X1: the table [dlg] is the least fixed point of the recursive term above
    the base row: it holds exactly the base row and the rows the recursive
    term yields on [dlg] itself, and it is included in every set of rows
    that holds the base row and is closed under the recursive term. *)
Theorem dlg_least_fixpoint :
  ∃ rows,
    dlg db instance_poll instance = Some rows
    ∧ (∀ r, r ∈ rows ↔ r = base ∨ r ∈ step rows)
    ∧ (∀ closed : list dlg_row,
         base ∈ closed → (∀ r, r ∈ step closed → r ∈ closed) →
         rows ⊆ closed).
Proof. apply dlg_lfp. Qed.
End PropagateFixpoint.

(** ** What a propagation run writes *)

Lemma dlg_spec db instance_poll instance rows :
  dlg db instance_poll instance = Some rows →
  NoDup rows ∧ rows ⊆ candidates db instance ∧ base_row instance ∈ rows
  ∧ (∀ r, r ∈ rows ↔
          r = base_row instance ∨ r ∈ recursive_term db instance_poll rows).
Proof.
  intros Hdlg.
  destruct (dlg_total db instance_poll instance) as (rows1 & E1 & ? & ? & ?).
  destruct (dlg_lfp db instance_poll instance) as (rows2 & E2 & ? & _).
  rewrite Hdlg in E1, E2. injection E1 as <-. injection E2 as <-. done.
Qed.

Lemma selected_elem instance rows v :
  v ∈ selected instance rows ↔
  ∃ r, r ∈ rows ∧ dlg_user_id r ≠ vote_user instance
       ∧ v = mkVote (dlg_user_id r) (dlg_poll_id r) (dlg_choice_id r)
                    (dlg_delegate_id r).
Proof.
  unfold selected. rewrite list_elem_of_fmap. split.
  - intros (r & -> & [? ?]%list_elem_of_filter). by exists r.
  - intros (r & ? & ? & ->). exists r. split; [done|].
    by apply list_elem_of_filter.
Qed.

Lemma vote_count_0 db u p :
  vote_count db u p = 0 ↔
  ∀ v, v ∈ decision_vote db → ¬ (vote_user v = u ∧ vote_poll v = p).
Proof.
  unfold vote_count. split.
  - intros H v Hv Hk.
    assert (v ∈ filter (λ v, vote_user v = u ∧ vote_poll v = p)
                       (decision_vote db)) as Hin
      by by apply list_elem_of_filter.
    destruct (filter _ (decision_vote db)); [|done]. by apply elem_of_nil in Hin.
  - intros H. assert (filter (λ v, vote_user v = u ∧ vote_poll v = p)
                             (decision_vote db) = []) as ->; [|done].
    apply elem_of_nil_inv. intros v [? ?]%list_elem_of_filter. by apply (H v).
Qed.

(** [insert_votes] succeeds iff the new rows have distinct (user, poll) and
    none of them has the (user, poll) of a row of the table. *)
Lemma insert_votes_Some_iff table rows :
  insert_votes table rows = Some (table ++ rows) ↔
  NoDup ((λ v, (vote_user v, vote_poll v)) <$> rows)
  ∧ ∀ r v, r ∈ rows → v ∈ table → ¬ same_user_poll v r.
Proof.
  revert table. induction rows as [|r rows IH]; intros table; simpl.
  - rewrite app_nil_r. split; [|done]. intros _. split; [constructor|].
    intros r v []%elem_of_nil.
  - case_decide as Hex.
    + split; [done|]. intros [_ Hno]. exfalso.
      apply Exists_exists in Hex as (v & Hv & Hs).
      apply (Hno r v); [apply list_elem_of_here|done..].
    + rewrite (assoc_L (++) table [r] rows : table ++ r :: rows = _).
      rewrite IH, NoDup_cons. split.
      * intros [Hnd Hno]. split_and!; [|done|].
        -- intros (r' & [= Hu Hp] & Hr')%list_elem_of_fmap.
           apply (Hno r' r); [done| |done].
           apply elem_of_app. right. apply list_elem_of_here.
        -- intros r' v [-> | Hr']%elem_of_cons Hv Hs.
           ++ apply Hex, Exists_exists. by exists v.
           ++ apply (Hno r' v); [done| |done]. apply elem_of_app. by left.
      * intros [[Hnotin Hnd] Hno]. split; [done|].
        intros r' v Hr' [Hv | ->%list_elem_of_singleton]%elem_of_app.
        -- apply Hno; [|done]. by apply elem_of_cons; right.
        -- intros [Hu Hp]. apply Hnotin, list_elem_of_fmap.
           exists r'. split; [|done]. by rewrite Hu, Hp.
Qed.

Lemma insert_votes_None_iff table rows :
  insert_votes table rows = None ↔
  insert_votes table rows ≠ Some (table ++ rows).
Proof.
  split; [by intros ->|]. intros H.
  destruct (insert_votes table rows) as [t|] eqn:E; [|done].
  apply insert_votes_app in E as ->. done.
Qed.

Lemma NoDup_keys_users (l : list Vote) (p : pk) :
  (∀ v, v ∈ l → vote_poll v = p) →
  NoDup ((λ v, (vote_user v, vote_poll v)) <$> l) ↔ NoDup (vote_user <$> l).
Proof.
  induction l as [|v l IH]; intros Hp; [split; constructor|].
  rewrite !fmap_cons, !NoDup_cons, IH, !list_elem_of_fmap.
  2:{ intros v' ?. apply Hp. by apply elem_of_cons; right. }
  assert ((∃ y, (vote_user v, vote_poll v) = (vote_user y, vote_poll y) ∧ y ∈ l)
          ↔ ∃ y, vote_user v = vote_user y ∧ y ∈ l) as ->; [|done].
  split; intros (y & Hy & Hin); exists y; split; try done.
  - by injection Hy.
  - f_equal; [done|]. rewrite (Hp v), (Hp y); [done| |apply list_elem_of_here].
    by apply elem_of_cons; right.
Qed.

(** The rows a run selects do not meet the table: whether the INSERT goes
    through depends on the selected rows alone. *)
Lemma propagate_vote_Ok_iff instance_poll instance db rows :
  dlg db instance_poll instance = Some rows →
  propagate_vote instance_poll instance db
  = (set_decision_vote db (decision_vote db ++ selected instance rows), Ok ())
  ↔ NoDup (vote_user <$> selected instance rows).
Proof.
  intros Hdlg.
  assert (∀ v, v ∈ selected instance rows →
            vote_poll v = vote_poll instance
            ∧ vote_count db (vote_user v) (vote_poll instance) = 0) as Hsel.
  { intros v Hv.
    destruct (selected_reached _ _ _ _ _ Hdlg Hv)
      as (_ & ? & via & _ & Hin & Hvia). auto. }
  assert (NoDup ((λ v, (vote_user v, vote_poll v)) <$> selected instance rows)
          ↔ NoDup (vote_user <$> selected instance rows)) as Hkeys.
  { apply (NoDup_keys_users _ (vote_poll instance)).
    intros v Hv. by destruct (Hsel v Hv). }
  unfold propagate_vote. rewrite Hdlg, <- Hkeys. split.
  - destruct (insert_votes _ _) as [t|] eqn:E; [|done].
    pose proof (insert_votes_app _ _ _ E) as ->.
    intros _. by destruct (proj1 (insert_votes_Some_iff _ _) E) as [? _].
  - intros Hnd.
    assert (insert_votes (decision_vote db) (selected instance rows)
            = Some (decision_vote db ++ selected instance rows)) as ->; [|done].
    apply insert_votes_Some_iff. split; [done|].
    intros r v Hr Hv [Hu Hp]. destruct (Hsel r Hr) as [Hpr Hc].
    apply (proj1 (vote_count_0 _ _ _) Hc v Hv). split; congruence.
Qed.

Lemma dlg_row_poll_choice db instance_poll instance rows r :
  dlg db instance_poll instance = Some rows → r ∈ rows →
  dlg_poll_id r = vote_poll instance ∧ dlg_choice_id r = vote_choice instance.
Proof.
  intros (_ & Hsub & _)%dlg_spec Hr. apply (candidates_poll_choice db), Hsub, Hr.
Qed.

(** The votes a successful run writes, described by the votes themselves. *)
Lemma selected_iff instance_poll instance db rows v :
  dlg db instance_poll instance = Some rows →
  v ∈ selected instance rows ↔
  vote_user v ≠ vote_user instance
  ∧ vote_poll v = vote_poll instance
  ∧ vote_choice v = vote_choice instance
  ∧ vote_count db (vote_user v) (vote_poll instance) = 0
  ∧ ∃ d, d ∈ decision_delegation db
         ∧ follower d = vote_user v
         ∧ vote_delegate v = Some (leader d)
         ∧ scope_matches (delegation_categories db d)
                         (poll_category instance_poll)
         ∧ (leader d = vote_user instance
            ∨ leader d ∈ vote_user <$> selected instance rows).
Proof.
  intros Hdlg. pose proof (dlg_spec _ _ _ _ Hdlg) as (_ & _ & Hbase & Hfix).
  rewrite selected_elem. split.
  - intros (r & Hr & Hne & ->). simpl.
    apply Hfix in Hr as [-> | Hr]; [done|].
    apply recursive_term_elem in Hr as (d & w & Hd & Hw & Hc & ->).
    apply where_clause_true in Hc as (Hl & Hs%extra_condition_scope & Hv).
    destruct (dlg_row_poll_choice _ _ _ _ _ Hdlg Hw) as [Hp Hch].
    simpl in *. rewrite Hp in Hv. split_and!; try done.
    exists d. split_and!; try done.
    destruct (decide (dlg_user_id w = vote_user instance)) as [E|E].
    + left. congruence.
    + right. rewrite Hl. apply list_elem_of_fmap.
      exists (mkVote (dlg_user_id w) (dlg_poll_id w) (dlg_choice_id w)
                     (dlg_delegate_id w)).
      split; [done|]. apply selected_elem. by exists w.
  - intros (Hne & Hp & Hch & Hv & d & Hd & Hf & Hdel & Hs & Hlead).
    assert (∃ w, w ∈ rows ∧ dlg_user_id w = leader d) as (w & Hw & Hwl).
    { destruct Hlead as [Hl | (v' & Hv' & (w & Hw & _ & ->)%selected_elem)
                                 %list_elem_of_fmap].
      - exists (base_row instance). by split.
      - by exists w. }
    destruct (dlg_row_poll_choice _ _ _ _ _ Hdlg Hw) as [Hwp Hwc].
    exists (mkDlg (follower d) (dlg_poll_id w) (dlg_choice_id w)
                  (Some (leader d))).
    split_and!.
    + apply Hfix. right. apply recursive_term_elem. exists d, w.
      split_and!; try done. apply where_clause_true. split_and!; [done| |].
      * by apply extra_condition_scope.
      * by rewrite Hwp, Hf.
    + simpl. by rewrite Hf.
    + destruct v. simpl in *. congruence.
Qed.

(** X2: the votes a successful propagation run appends are exactly the rows
    (u, poll, choice of the voter, delegate = l) where u is not the voter,
    has no vote for the poll when the run starts, and delegates to l by a
    delegation whose categories match the poll, l being the voter or a user
    who receives a vote from the same run. *)
Theorem propagate_vote_writes instance_poll instance db db' :
  propagate_vote instance_poll instance db = (db', Ok ()) →
  ∃ new,
    decision_vote db' = decision_vote db ++ new
    ∧ ∀ v, v ∈ new ↔
        vote_user v ≠ vote_user instance
        ∧ vote_poll v = vote_poll instance
        ∧ vote_choice v = vote_choice instance
        ∧ vote_count db (vote_user v) (vote_poll instance) = 0
        ∧ ∃ d, d ∈ decision_delegation db
               ∧ follower d = vote_user v
               ∧ vote_delegate v = Some (leader d)
               ∧ scope_matches (delegation_categories db d)
                               (poll_category instance_poll)
               ∧ (leader d = vote_user instance ∨ leader d ∈ vote_user <$> new).
Proof.
  intros (rows & Hdlg & [[_ ->] | [[=] _]])%propagate_vote_outcome.
  exists (selected instance rows). split; [done|].
  intros v. by apply selected_iff.
Qed.

Lemma propagate_vote_writes_witness :
  let db := mkDB Sample.tree []
              [mkVote Sample.carol 10 101 None; mkVote Sample.alice 10 100 None] in
  let instance := mkVote Sample.alice 10 100 None in
  ∃ new,
    decision_vote (propagate_vote Sample.poll instance db).1
    = decision_vote db ++ new
    ∧ ∀ v, v ∈ new ↔
        vote_user v ≠ vote_user instance
        ∧ vote_poll v = vote_poll instance
        ∧ vote_choice v = vote_choice instance
        ∧ vote_count db (vote_user v) (vote_poll instance) = 0
        ∧ ∃ d, d ∈ decision_delegation db
               ∧ follower d = vote_user v
               ∧ vote_delegate v = Some (leader d)
               ∧ scope_matches (delegation_categories db d)
                               (poll_category Sample.poll)
               ∧ (leader d = vote_user instance ∨ leader d ∈ vote_user <$> new).
Proof.
  intros db instance.
  apply (propagate_vote_writes Sample.poll instance db). reflexivity.
Defined.

Lemma NoDup_fmap_elem_inj {A B} (f : A → B) (l : list A) x y :
  NoDup (f <$> l) → x ∈ l → y ∈ l → f x = f y → x = y.
Proof.
  induction l as [|a l IH]; [by intros _ ?%elem_of_nil|].
  rewrite fmap_cons, NoDup_cons. intros [Hnotin Hnd].
  intros [-> | Hx]%elem_of_cons [-> | Hy]%elem_of_cons Hf; auto.
  - destruct Hnotin. rewrite Hf. by apply list_elem_of_fmap_2.
  - destruct Hnotin. rewrite <- Hf. by apply list_elem_of_fmap_2.
Qed.

Lemma not_NoDup_fmap {A B} `{!EqDecision A, !EqDecision B} (f : A → B)
    (l : list A) :
  NoDup l → ¬ NoDup (f <$> l) →
  ∃ x y, x ∈ l ∧ y ∈ l ∧ x ≠ y ∧ f x = f y.
Proof.
  induction l as [|a l IH]; [intros _ []; constructor|].
  rewrite fmap_cons, !NoDup_cons. intros [Ha Hnd] Hnot.
  destruct (decide (f a ∈ f <$> l)) as [Hin | Hnin].
  - apply list_elem_of_fmap in Hin as (y & Hy & Hin). exists a, y.
    split_and!; [apply list_elem_of_here|by apply elem_of_cons; right| |done].
    by intros ->.
  - destruct (decide (NoDup (f <$> l))) as [Hn | Hn]; [by destruct Hnot|].
    destruct (IH Hnd Hn) as (x & y & ? & ? & ? & ?). exists x, y.
    split_and!; try done; by apply elem_of_cons; right.
Qed.

Lemma selected_users instance rows :
  vote_user <$> selected instance rows
  = dlg_user_id <$> filter (λ r, dlg_user_id r ≠ vote_user instance) rows.
Proof. unfold selected. by rewrite <- list_fmap_compose. Qed.

(** A selected row comes from a delegation. *)
Lemma selected_row_delegation db instance_poll instance rows r :
  dlg db instance_poll instance = Some rows →
  r ∈ filter (λ r, dlg_user_id r ≠ vote_user instance) rows →
  ∃ d, d ∈ decision_delegation db
       ∧ r = mkDlg (follower d) (vote_poll instance) (vote_choice instance)
                   (Some (leader d)).
Proof.
  intros (_ & Hsub & _)%dlg_spec [Hne Hr]%list_elem_of_filter.
  apply Hsub in Hr. unfold candidates in Hr.
  apply elem_of_cons in Hr as [-> | (d & -> & Hd)%list_elem_of_fmap]; [done|].
  by exists d.
Qed.

Lemma propagate_vote_single_leader_ok instance_poll instance db rows :
  NoDup (follower <$> decision_delegation db) →
  dlg db instance_poll instance = Some rows →
  propagate_vote instance_poll instance db
  = (set_decision_vote db (decision_vote db ++ selected instance rows), Ok ()).
Proof.
  intros Hnd Hdlg. apply propagate_vote_Ok_iff; [done|].
  rewrite selected_users. apply NoDup_fmap_2_strong.
  - intros x y Hx Hy Hxy.
    destruct (selected_row_delegation _ _ _ _ _ Hdlg Hx) as (d1 & Hd1 & ->).
    destruct (selected_row_delegation _ _ _ _ _ Hdlg Hy) as (d2 & Hd2 & ->).
    simpl in Hxy.
    by rewrite (NoDup_fmap_elem_inj follower _ d1 d2 Hnd Hd1 Hd2 Hxy).
  - apply NoDup_filter. by apply dlg_spec in Hdlg as [? _].
Qed.

(** X3: on a delegation table in which no user follows two leaders, a
    propagation run never fails. *)
Theorem propagate_vote_single_leader instance_poll instance db :
  NoDup (follower <$> decision_delegation db) →
  (propagate_vote instance_poll instance db).2 = Ok ().
Proof.
  intros Hnd.
  destruct (dlg_total db instance_poll instance) as (rows & Hdlg & _).
  by rewrite (propagate_vote_single_leader_ok _ _ _ rows).
Qed.

Lemma propagate_vote_single_leader_witness :
  (propagate_vote Sample.poll (mkVote Sample.alice 10 100 None)
     (mkDB Sample.tree [] [mkVote Sample.alice 10 100 None])).2 = Ok ().
Proof.
  apply propagate_vote_single_leader.
  apply (bool_decide_unpack _). vm_compute. exact I.
Defined.

(** X4: a propagation run fails, with IntegrityError, iff the recursive
    query reaches some user other than the voter through two different
    leaders. *)
Theorem propagate_vote_fails_iff instance_poll instance db :
  (propagate_vote instance_poll instance db).2 = Raise IntegrityError ↔
  ∃ rows u l1 l2,
    dlg db instance_poll instance = Some rows
    ∧ u ≠ vote_user instance ∧ l1 ≠ l2
    ∧ mkDlg u (vote_poll instance) (vote_choice instance) (Some l1) ∈ rows
    ∧ mkDlg u (vote_poll instance) (vote_choice instance) (Some l2) ∈ rows.
Proof.
  destruct (dlg_total db instance_poll instance) as (rows & Hdlg & Hnd & _).
  set (kept := filter (λ r, dlg_user_id r ≠ vote_user instance) rows).
  assert (NoDup kept) as Hk by by apply NoDup_filter.
  split.
  - intros Hres.
    assert (¬ NoDup (dlg_user_id <$> kept)) as Hnot.
    { intros Hn. unfold kept in Hn. rewrite <- selected_users in Hn.
      apply (propagate_vote_Ok_iff _ _ _ _ Hdlg) in Hn. by rewrite Hn in Hres. }
    destruct (not_NoDup_fmap dlg_user_id kept Hk Hnot)
      as (x & y & Hx & Hy & Hxy & Hu).
    destruct (selected_row_delegation _ _ _ _ _ Hdlg Hx) as (d1 & _ & ->).
    destruct (selected_row_delegation _ _ _ _ _ Hdlg Hy) as (d2 & _ & ->).
    simpl in Hu. exists rows, (follower d1), (leader d1), (leader d2).
    apply list_elem_of_filter in Hx as [Hne Hx].
    apply list_elem_of_filter in Hy as [_ Hy].
    split_and!; try done.
    + intros E. apply Hxy. by rewrite Hu, E.
    + by rewrite Hu.
  - intros (rows' & u & l1 & l2 & Hdlg' & Hne & Hl & H1 & H2).
    rewrite Hdlg in Hdlg'. injection Hdlg' as <-.
    assert (¬ NoDup (dlg_user_id <$> kept)) as Hnot.
    { intros Hn. apply Hl.
      assert (mkDlg u (vote_poll instance) (vote_choice instance) (Some l1)
              = mkDlg u (vote_poll instance) (vote_choice instance) (Some l2))
        as [= ?]; [|done].
      apply (NoDup_fmap_elem_inj dlg_user_id kept); try done;
        by apply list_elem_of_filter. }
    destruct (propagate_vote instance_poll instance db) as [db' res] eqn:E.
    pose proof E as (rows2 & Hd2 & [[-> ->] | [-> _]])%propagate_vote_outcome;
      [|done].
    rewrite Hdlg in Hd2. injection Hd2 as <-. destruct Hnot.
    apply (propagate_vote_Ok_iff _ _ _ _ Hdlg) in E.
    by rewrite selected_users in E.
Qed.

(** ** Running the propagation again *)

Lemma where_clause_more_votes db instance_poll new d w :
  where_clause (set_decision_vote db (decision_vote db ++ new))
               instance_poll d w = true →
  where_clause db instance_poll d w = true.
Proof.
  rewrite !where_clause_true. intros (Hl & He & Hv). split_and!; [done..|].
  apply vote_count_0. intros v Hv'.
  apply (proj1 (vote_count_0 _ _ _) Hv v). simpl. apply elem_of_app. by left.
Qed.

Lemma propagate_vote_again instance_poll instance db db' :
  propagate_vote instance_poll instance db = (db', Ok ()) →
  propagate_vote instance_poll instance db' = (db', Ok ()).
Proof.
  intros (rows & Hdlg & [[_ ->] | [[=] _]])%propagate_vote_outcome.
  set (db' := set_decision_vote db (decision_vote db ++ selected instance rows)).
  destruct (dlg_lfp db' instance_poll instance) as (rows' & Hdlg' & _ & Hleast).
  pose proof (dlg_spec _ _ _ _ Hdlg) as (_ & _ & Hbase & Hfix).
  assert (rows' ⊆ rows) as Hsub.
  { apply Hleast; [done|]. intros r Hr. apply Hfix. right.
    apply recursive_term_elem in Hr as (d & w & Hd & Hw & Hc & ->).
    apply recursive_term_elem. exists d, w. split_and!; try done.
    by apply where_clause_more_votes in Hc. }
  assert (selected instance rows' = []) as Hnone.
  { apply elem_of_nil_inv. intros v Hv.
    destruct (selected_reached _ _ _ _ _ Hdlg' Hv)
      as (_ & Hp & via & _ & Hin & Hvia).
    apply Hvia in Hin. apply (proj1 (vote_count_0 _ _ _) Hin v); [|done].
    simpl. apply elem_of_app. right.
    apply selected_elem in Hv as (r & Hr & Hne & ->).
    apply selected_elem. exists r. auto. }
  unfold propagate_vote. rewrite Hdlg', Hnone. simpl. done.
Qed.

(** X5: propagation is idempotent: run again on the database a successful
    run has left, with the same vote, it succeeds and writes nothing. *)
Theorem propagate_vote_idempotent instance_poll instance db db' :
  propagate_vote instance_poll instance db = (db', Ok ()) →
  propagate_vote instance_poll instance db' = (db', Ok ()).
Proof. apply propagate_vote_again. Qed.

Lemma propagate_vote_idempotent_witness :
  let db := mkDB Sample.tree [] [mkVote Sample.alice 10 100 None] in
  let instance := mkVote Sample.alice 10 100 None in
  propagate_vote Sample.poll instance (propagate_vote Sample.poll instance db).1
  = ((propagate_vote Sample.poll instance db).1, Ok ()).
Proof.
  intros db instance.
  apply (propagate_vote_idempotent Sample.poll instance db). reflexivity.
Defined.

(** ** [set_vote], step by step *)

Lemma votes_create_fresh self user vote db :
  votes_get self user db = Raise DoesNotExist →
  vote_user vote = user → vote_poll vote = poll_pk self →
  votes_create self vote db
  = match propagate_vote self vote
            (set_decision_vote db (decision_vote db ++ [vote])) with
    | (db', Ok _) => (db', Ok vote)
    | (db', Raise e) => (db', Raise e)
    end.
Proof.
  intros Hget Hu Hp. unfold votes_create. unfold_M. simpl.
  case_decide as Hex.
  - apply Exists_exists in Hex as (v & Hv & [Hvu Hvp]).
    destruct (proj1 (votes_get_DoesNotExist self user db) Hget v Hv).
    split; congruence.
  - simpl. by destruct (propagate_vote _ _ _) as [db' [[]|e]].
Qed.

Lemma Vote_save_unfold self old vote db :
  Vote_save self old vote db
  = match propagate_vote self vote
            (set_decision_vote db
               ((λ v, if decide (same_user_poll v old) then vote else v)
                <$> decision_vote db)) with
    | (db', Ok _) => (db', Ok vote)
    | (db', Raise e) => (db', Raise e)
    end.
Proof.
  unfold Vote_save. unfold_M.
  by destruct (propagate_vote _ _ _) as [db' [[]|e]].
Qed.

(** Either [set_vote] raises before it writes, or it writes the vote, as a
    new row or in place of the user's row, and runs the propagation. *)
Lemma set_vote_inv self user choice delegate secure db db' res :
  set_vote self user choice delegate secure db = (db', res) →
  (db' = db ∧ ∃ e, res = Raise e)
  ∨ ∃ c votes1 r,
      let vote := mkVote user (poll_pk self) (choice_pk c) delegate in
      is_open self = true ∧ choice = ChoiceObj c
      ∧ choice_poll c = poll_pk self
      ∧ match secure, delegate with
        | true, Some l => ∃ d, delegation_rows self l user db = [d]
        | _, _ => True
        end
      ∧ ((votes_get self user db = Raise DoesNotExist
          ∧ votes1 = decision_vote db ++ [vote])
         ∨ (∃ old, votes_get self user db = Ok old
                   ∧ ¬ (secure = true ∧ is_Some delegate
                        ∧ vote_delegate old = None)
                   ∧ votes1 = (λ v, if decide (same_user_poll v old)
                                    then vote else v) <$> decision_vote db))
      ∧ propagate_vote self vote (set_decision_vote db votes1) = (db', r)
      ∧ res = match r with Ok _ => Ok vote | Raise e => Raise e end.
Proof.
  destruct (is_open self) eqn:Ho.
  2:{ rewrite set_vote_closed by done. intros [= <- <-]. left. eauto. }
  destruct (decide (choice_of_poll choice self)) as [(c & -> & Hc) | Hn].
  2:{ rewrite set_vote_invalid by done. intros [= <- <-]. left. eauto. }
  rewrite set_vote_valid by done.
  assert (match secure, delegate with
          | true, Some l =>
              match objects_get (delegation_rows self l user db) with
              | Ok _ => None
              | Raise DoesNotExist => Some PyException
              | Raise e => Some e
              end
          | _, _ => None
          end = None →
          match secure, delegate with
          | true, Some l => ∃ d, delegation_rows self l user db = [d]
          | _, _ => True
          end) as Hauth.
  { destruct secure, delegate as [l|]; try done.
    destruct (objects_get (delegation_rows self l user db)) as [d|e] eqn:E.
    - intros _. exists d. by apply objects_get_Ok.
    - by destruct e. }
  destruct (match secure with true => _ | false => _ end) as [e|] eqn:Ea.
  { intros [= <- <-]. left. eauto. }
  specialize (Hauth eq_refl).
  destruct (votes_get self user db) as [old|e] eqn:Eg.
  - pose proof (votes_get_Ok _ _ _ _ Eg) as (_ & Hu & Hp).
    assert (secure = true ∧ is_Some delegate ∧ vote_delegate old = None
            ∨ ¬ (secure = true ∧ is_Some delegate ∧ vote_delegate old = None))
      as [(-> & [l ->] & Hd) | Hguard].
    { destruct secure, delegate, (vote_delegate old); try (left; by eauto);
        right; intros (? & [? ?] & ?); done. }
    { rewrite Hd. intros [= <- <-]. left. eauto. }
    assert (match secure, delegate, vote_delegate old with
            | true, Some _, None => (db, Raise PyException)
            | _, _, _ =>
                Vote_save self old
                  (mkVote (vote_user old) (vote_poll old) (choice_pk c)
                          delegate) db
            end
            = Vote_save self old
                (mkVote user (poll_pk self) (choice_pk c) delegate) db) as ->.
    { rewrite Hu, Hp. destruct secure, delegate, (vote_delegate old); try done.
      destruct Hguard. eauto. }
    rewrite Vote_save_unfold.
    destruct (propagate_vote _ _ _) as [db1 r] eqn:Ep.
    intros Hres. right. eexists c, _, r. simpl.
    split_and!; try done.
    + right. exists old. done.
    + rewrite Ep. f_equal. by destruct r as [[]|]; injection Hres.
    + by destruct r as [[]|]; injection Hres.
  - destruct (votes_get_errors _ _ _ _ Eg) as [-> | ->].
    2:{ intros [= <- <-]. left. eauto. }
    rewrite (votes_create_fresh self user) by done.
    destruct (propagate_vote _ _ _) as [db1 r] eqn:Ep.
    intros Hres. right. eexists c, _, r. simpl.
    split_and!; try done.
    + by left.
    + rewrite Ep. f_equal. by destruct r as [[]|]; injection Hres.
    + by destruct r as [[]|]; injection Hres.
Qed.

Lemma set_decision_vote_tables db votes :
  decision_delegation (set_decision_vote db votes) = decision_delegation db
  ∧ decision_delegation_categories (set_decision_vote db votes)
    = decision_delegation_categories db.
Proof. done. Qed.

Lemma propagate_vote_tables instance_poll instance db db' res :
  propagate_vote instance_poll instance db = (db', res) →
  decision_delegation db' = decision_delegation db
  ∧ decision_delegation_categories db' = decision_delegation_categories db.
Proof.
  by intros (rows & _ & [[_ ->] | [_ ->]])%propagate_vote_outcome.
Qed.

(** The votes of a user who has one for the poll are left as they are. *)
Lemma propagate_vote_keeps instance_poll instance db db' res u p :
  propagate_vote instance_poll instance db = (db', res) →
  0 < vote_count db u p →
  filter (λ v, vote_user v = u ∧ vote_poll v = p) (decision_vote db')
  = filter (λ v, vote_user v = u ∧ vote_poll v = p) (decision_vote db).
Proof.
  intros (rows & Hdlg & [[_ ->] | [_ ->]])%propagate_vote_outcome Hc; [|done].
  simpl. rewrite filter_app.
  assert (filter (λ v, vote_user v = u ∧ vote_poll v = p)
                 (selected instance rows) = []) as ->; [|by rewrite app_nil_r].
  apply elem_of_nil_inv. intros v [[Hu Hp] Hv]%list_elem_of_filter.
  destruct (selected_reached _ _ _ _ _ Hdlg Hv)
    as (_ & Hpoll & via & _ & Hin & Hvia).
  apply Hvia in Hin. rewrite Hu, <- Hpoll, Hp in Hin. lia.
Qed.

Lemma filter_update_other (old vote : Vote) (l : list Vote) u p :
  same_user_poll vote old →
  ¬ (vote_user old = u ∧ vote_poll old = p) →
  filter (λ v, vote_user v = u ∧ vote_poll v = p)
         ((λ v, if decide (same_user_poll v old) then vote else v) <$> l)
  = filter (λ v, vote_user v = u ∧ vote_poll v = p) l.
Proof.
  intros [Hu Hp] Hne. induction l as [|v l IH]; [done|].
  rewrite fmap_cons, !filter_cons, IH.
  destruct (decide (same_user_poll v old)) as [[Hvu Hvp] | Hs].
  - rewrite !decide_False; [done|..]; intros [? ?]; apply Hne; split; congruence.
  - done.
Qed.

(** X6: [set_vote] never changes the delegation tables; and the votes of
    every other pair (user, poll) that has a vote when it is called are the
    same rows afterwards, whether the call succeeds or raises: neither the
    write nor the propagation touches them. *)
Theorem set_vote_frame self user choice delegate secure db :
  decision_delegation (set_vote self user choice delegate secure db).1
  = decision_delegation db
  ∧ decision_delegation_categories
      (set_vote self user choice delegate secure db).1
    = decision_delegation_categories db
  ∧ ∀ u p,
      (u ≠ user ∨ p ≠ poll_pk self) → 0 < vote_count db u p →
      filter (λ v, vote_user v = u ∧ vote_poll v = p)
        (decision_vote (set_vote self user choice delegate secure db).1)
      = filter (λ v, vote_user v = u ∧ vote_poll v = p) (decision_vote db).
Proof.
  destruct (set_vote self user choice delegate secure db) as [db' res] eqn:E.
  apply set_vote_inv in E as [[-> _] | (c & votes1 & r & E)]; [done|].
  simpl in *. destruct E as (_ & _ & _ & _ & Hw & Hp & _).
  pose proof (propagate_vote_tables _ _ _ _ _ Hp) as [-> ->].
  split_and!; [done..|]. intros u p Hother Hc.
  assert (filter (λ v, vote_user v = u ∧ vote_poll v = p) votes1
          = filter (λ v, vote_user v = u ∧ vote_poll v = p) (decision_vote db))
    as Hsame.
  { destruct Hw as [[_ ->] | (old & Hold & _ & ->)].
    - rewrite filter_app, filter_cons, decide_False, filter_nil, app_nil_r;
        [done|]. simpl. intros [? ?]. destruct Hother; congruence.
    - apply votes_get_Ok in Hold as (_ & Hou & Hop).
      apply filter_update_other; [done|].
      intros [? ?]. destruct Hother; congruence. }
  rewrite (propagate_vote_keeps _ _ _ _ _ u p Hp); [done|].
  unfold vote_count. simpl. by rewrite Hsame.
Qed.

Lemma set_vote_frame_witness :
  let db := mkDB Sample.tree [] [mkVote Sample.dave 10 101 None] in
  let db' := (set_vote Sample.poll Sample.alice (ChoiceObj Sample.yes)
                None true db).1 in
  decision_delegation db' = decision_delegation db
  ∧ decision_delegation_categories db' = decision_delegation_categories db
  ∧ filter (λ v, vote_user v = Sample.dave ∧ vote_poll v = 10%Z)
           (decision_vote db')
    = filter (λ v, vote_user v = Sample.dave ∧ vote_poll v = 10%Z)
             (decision_vote db).
Proof.
  intros db db'.
  destruct (set_vote_frame Sample.poll Sample.alice (ChoiceObj Sample.yes)
              None true db) as (Hd & Hc & Hv).
  split_and!; [exact Hd|exact Hc|].
  apply (Hv Sample.dave 10%Z).
  - left. discriminate.
  - vm_compute. lia.
Defined.

Lemma set_vote_stored self user choice delegate secure db db' vote :
  votes_unique (decision_vote db) →
  set_vote self user choice delegate secure db = (db', Ok vote) →
  votes_get self user db' = Ok vote
  ∧ ∃ c, choice = ChoiceObj c
         ∧ vote = mkVote user (poll_pk self) (choice_pk c) delegate.
Proof.
  intros Hu E.
  pose proof (set_vote_unique self user choice delegate secure db Hu) as Hu'.
  rewrite E in Hu'. simpl in Hu'.
  apply set_vote_inv in E as [[_ [e [=]]] | (c & votes1 & r & E)].
  simpl in E. destruct E as (_ & -> & _ & _ & Hw & Hp & Hres).
  assert (vote = mkVote user (poll_pk self) (choice_pk c) delegate) as ->.
  { destruct r as [[]|]; [by injection Hres|done]. }
  split; [|by exists c].
  apply votes_get_unique; [done| |done..].
  apply propagate_vote_outcome in Hp as (rows & _ & [[_ ->] | [_ ->]]); simpl.
  1: apply elem_of_app; left.
  all: destruct Hw as [[_ ->] | (old & Hold & _ & ->)].
  all: try (apply elem_of_app; right; apply list_elem_of_here).
  all: apply votes_get_Ok in Hold as (Hin & _ & _).
  all: apply (list_elem_of_fmap_2' _ _ old); [done|].
  all: by rewrite decide_True.
Qed.

(** X7: on a vote table with at most one vote for every user and poll,
    after a successful [set_vote] the vote returned is the user's vote for
    the poll, with the given choice and delegate: [get_vote] returns it and
    [get_user_choice] returns the choice. *)
Theorem set_vote_get_vote self user choice delegate secure db db' vote :
  votes_unique (decision_vote db) →
  set_vote self user choice delegate secure db = (db', Ok vote) →
  get_vote self user db' = (db', Ok vote)
  ∧ get_user_choice self user db' = (db', Ok (Some (vote_choice vote)))
  ∧ ∃ c, choice = ChoiceObj c
         ∧ vote = mkVote user (poll_pk self) (choice_pk c) delegate.
Proof.
  intros Hu E. destruct (set_vote_stored _ _ _ _ _ _ _ _ Hu E) as [Hget Hc].
  unfold get_user_choice, get_vote. unfold_M. by rewrite Hget.
Qed.

Lemma set_vote_get_vote_witness :
  let db := mkDB Sample.tree [] [mkVote Sample.alice 10 101 None] in
  let db' := (set_vote Sample.poll Sample.alice (ChoiceObj Sample.yes)
                None true db).1 in
  let vote := mkVote Sample.alice 10 100 None in
  get_vote Sample.poll Sample.alice db' = (db', Ok vote)
  ∧ get_user_choice Sample.poll Sample.alice db'
    = (db', Ok (Some (vote_choice vote)))
  ∧ ∃ c, ChoiceObj Sample.yes = ChoiceObj c
         ∧ vote = mkVote Sample.alice (poll_pk Sample.poll) (choice_pk c) None.
Proof.
  intros db db' vote.
  apply (set_vote_get_vote Sample.poll Sample.alice (ChoiceObj Sample.yes)
           None true db db' vote).
  - apply (bool_decide_unpack _). vm_compute. exact I.
  - reflexivity.
Defined.

Lemma votes_get_no_multiple self user db :
  votes_unique (decision_vote db) →
  votes_get self user db ≠ Raise MultipleObjectsReturned.
Proof.
  intros Hu. unfold votes_get.
  pose proof (filter_unique (λ v, (vote_user v, vote_poll v))
                (λ v, vote_poll v = poll_pk self ∧ vote_user v = user)
                (decision_vote db) Hu) as Hlen.
  destruct (filter _ (decision_vote db)) as [|v [|v' l]]; try done.
  simpl in Hlen. intros _. assert (2 ≤ 1); [|lia].
  etrans; [|apply Hlen]; [lia|]. by intros x y [-> ->] [-> ->].
Qed.

Lemma set_vote_ok self user c delegate secure db :
  is_open self = true → choice_poll c = poll_pk self →
  votes_unique (decision_vote db) →
  NoDup (follower <$> decision_delegation db) →
  (secure = true → ∀ l, delegate = Some l →
     authorized self l user db ∧ delegations_unique db
     ∧ ∀ old, votes_get self user db = Ok old → vote_delegate old ≠ None) →
  ∃ db', set_vote self user (ChoiceObj c) delegate secure db
         = (db', Ok (mkVote user (poll_pk self) (choice_pk c) delegate)).
Proof.
  intros Ho Hc Hu Hnd Hsec. rewrite set_vote_valid by done.
  assert (∀ votes vote,
            ∃ db', propagate_vote self vote (set_decision_vote db votes)
                   = (db', Ok ())) as Hprop.
  { intros votes vote.
    destruct (dlg_total (set_decision_vote db votes) self vote)
      as (rows & Hdlg & _).
    eexists. by apply (propagate_vote_single_leader_ok _ _ _ rows). }
  assert (match secure, delegate with
          | true, Some l =>
              match objects_get (delegation_rows self l user db) with
              | Ok _ => None
              | Raise DoesNotExist => Some PyException
              | Raise e => Some e
              end
          | _, _ => None
          end = None) as ->.
  { destruct secure, delegate as [l|]; try done.
    destruct (Hsec eq_refl l eq_refl) as (Ha & Hdu & _).
    pose proof (delegation_rows_length self l user db Hdu) as Hlen.
    destruct (delegation_rows self l user db) as [|d [|d' ds]] eqn:E;
      simpl in *; [|done|lia].
    by apply delegation_rows_nil in E. }
  destruct (votes_get self user db) as [old|e] eqn:Eg.
  - pose proof (votes_get_Ok _ _ _ _ Eg) as (_ & Hou & Hop).
    assert (match secure, delegate, vote_delegate old with
            | true, Some _, None => (db, Raise PyException)
            | _, _, _ =>
                Vote_save self old
                  (mkVote (vote_user old) (vote_poll old) (choice_pk c)
                          delegate) db
            end
            = Vote_save self old
                (mkVote user (poll_pk self) (choice_pk c) delegate) db) as ->.
    { rewrite Hou, Hop.
      destruct secure, delegate as [l|], (vote_delegate old) eqn:Ed; try done.
      destruct (Hsec eq_refl l eq_refl) as (_ & _ & Hno).
      by destruct (Hno old eq_refl). }
    rewrite Vote_save_unfold.
    destruct (Hprop ((λ v, if decide (same_user_poll v old)
                           then mkVote user (poll_pk self) (choice_pk c) delegate
                           else v) <$> decision_vote db)
                    (mkVote user (poll_pk self) (choice_pk c) delegate))
      as [db' ->].
    by exists db'.
  - destruct (votes_get_errors _ _ _ _ Eg) as [-> | ->].
    2:{ by destruct (votes_get_no_multiple self user db Hu). }
    rewrite (votes_create_fresh self user) by done.
    destruct (Hprop (decision_vote db
                     ++ [mkVote user (poll_pk self) (choice_pk c) delegate])
                    (mkVote user (poll_pk self) (choice_pk c) delegate))
      as [db' ->].
    by exists db'.
Qed.

(** X8: on an open poll, with a choice of the poll, a vote table with at
    most one vote for every user and poll and a delegation table in which no
    user follows two leaders, [set_vote] succeeds and returns the vote with
    the given choice and delegate, when it is called without a delegate or
    with [secure] false, and also when it is called with [secure] true and a
    delegate that a delegation of matching scope authorizes, for a user
    without a direct vote. *)
Theorem set_vote_succeeds self user c delegate secure db :
  is_open self = true → choice_poll c = poll_pk self →
  votes_unique (decision_vote db) →
  NoDup (follower <$> decision_delegation db) →
  (secure = true → ∀ l, delegate = Some l →
     authorized self l user db ∧ delegations_unique db
     ∧ ∀ old, votes_get self user db = Ok old → vote_delegate old ≠ None) →
  ∃ db', set_vote self user (ChoiceObj c) delegate secure db
         = (db', Ok (mkVote user (poll_pk self) (choice_pk c) delegate)).
Proof. apply set_vote_ok. Qed.

Lemma set_vote_succeeds_witness :
  ∃ db', set_vote Sample.poll Sample.bob (ChoiceObj Sample.no) None true
           (mkDB Sample.tree [] [mkVote Sample.bob 10 100 (Some Sample.alice)])
         = (db', Ok (mkVote Sample.bob 10 101 None)).
Proof.
  apply (set_vote_succeeds Sample.poll Sample.bob Sample.no None true);
    try reflexivity.
  - apply (bool_decide_unpack _). vm_compute. exact I.
  - apply (bool_decide_unpack _). vm_compute. exact I.
  - intros _ l [=].
Defined.

Lemma delegation_rows_tables self delegate user db db' :
  decision_delegation db' = decision_delegation db →
  decision_delegation_categories db' = decision_delegation_categories db →
  delegation_rows self delegate user db' = delegation_rows self delegate user db.
Proof. intros H1 H2. unfold delegation_rows. by rewrite H1, H2. Qed.

Lemma update_same (vote : Vote) (l : list Vote) :
  votes_unique l → vote ∈ l →
  (λ v, if decide (same_user_poll v vote) then vote else v) <$> l = l.
Proof.
  intros Hu Hin. rewrite <- (list_fmap_id l) at 2.
  apply list_fmap_ext. intros i v Hv. simpl.
  case_decide as Hs; [|done]. destruct Hs as [Hsu Hsp].
  symmetry. apply (NoDup_fmap_elem_inj (λ v, (vote_user v, vote_poll v)) l);
    [done| |done|by rewrite Hsu, Hsp].
  by eapply list_elem_of_lookup_2.
Qed.

Lemma set_vote_twice self user choice delegate secure db db' vote :
  votes_unique (decision_vote db) →
  set_vote self user choice delegate secure db = (db', Ok vote) →
  set_vote self user choice delegate secure db' = (db', Ok vote).
Proof.
  intros Hu E.
  pose proof (set_vote_unique self user choice delegate secure db Hu) as Hu'.
  rewrite E in Hu'. simpl in Hu'.
  destruct (set_vote_stored _ _ _ _ _ _ _ _ Hu E) as [Hget _].
  apply set_vote_inv in E as [[_ [e [=]]] | (c & votes1 & r & E)].
  simpl in E. destruct E as (Ho & -> & Hc & Hauth & _ & Hp & Hres).
  destruct r as [[]|]; [|done]. injection Hres as ->.
  pose proof (propagate_vote_tables _ _ _ _ _ Hp) as [Ht1 Ht2]. simpl in *.
  apply propagate_vote_again in Hp.
  rewrite set_vote_valid by done.
  assert (match secure, delegate with
          | true, Some l =>
              match objects_get (delegation_rows self l user db') with
              | Ok _ => None
              | Raise DoesNotExist => Some PyException
              | Raise e => Some e
              end
          | _, _ => None
          end = None) as ->.
  { destruct secure, delegate as [l|]; try done.
    rewrite (delegation_rows_tables self l user db db') by done.
    by destruct Hauth as [d ->]. }
  rewrite Hget. simpl.
  assert (Vote_save self
            (mkVote user (poll_pk self) (choice_pk c) delegate)
            (mkVote user (poll_pk self) (choice_pk c) delegate) db'
          = (db', Ok (mkVote user (poll_pk self) (choice_pk c) delegate)))
    as Hsave.
  { rewrite Vote_save_unfold, update_same; [|done|].
    - assert (set_decision_vote db' (decision_vote db') = db') as ->
        by by destruct db'.
      by rewrite Hp.
    - by apply votes_get_Ok in Hget as [? _]. }
  by destruct secure, delegate.
Qed.

(** X9: [set_vote] is idempotent: on a vote table with at most one vote for
    every user and poll, a call that succeeded, made again with the same
    arguments on the database it left, succeeds with the same vote and
    leaves the database as it is. *)
Theorem set_vote_idempotent self user choice delegate secure db db' vote :
  votes_unique (decision_vote db) →
  set_vote self user choice delegate secure db = (db', Ok vote) →
  set_vote self user choice delegate secure db' = (db', Ok vote).
Proof. apply set_vote_twice. Qed.

Lemma set_vote_idempotent_witness :
  let db := mkDB Sample.tree [] [mkVote Sample.dave 10 101 None] in
  let db' := (set_vote Sample.poll Sample.alice (ChoiceObj Sample.yes)
                None true db).1 in
  set_vote Sample.poll Sample.alice (ChoiceObj Sample.yes) None true db'
  = (db', Ok (mkVote Sample.alice 10 100 None)).
Proof.
  intros db db'.
  apply (set_vote_idempotent Sample.poll Sample.alice (ChoiceObj Sample.yes)
           None true db).
  - apply (bool_decide_unpack _). vm_compute. exact I.
  - reflexivity.
Defined.

(** ** Cache keys *)

Lemma pretty_N_char_colon (x : N) : pretty_N_char x ≠ ":"%char.
Proof. unfold pretty_N_char. by repeat case_match. Qed.

Lemma pretty_N_go_colon_free (x : N) (s : string) :
  colon_free s → colon_free (pretty_N_go x s).
Proof.
  revert s. induction (N.lt_wf_0 x) as [x _ IH]; intros s Hs.
  assert (x = 0 ∨ 0 < x)%N as [-> | Hx] by lia.
  - by rewrite pretty_N_go_0.
  - rewrite pretty_N_go_step by done. apply IH.
    + by apply N.div_lt.
    + split; [apply pretty_N_char_colon|done].
Qed.

Lemma pretty_Z_colon_free (n : Z) : colon_free (pretty n).
Proof.
  assert (∀ x : N, colon_free (pretty x)) as HN.
  { intros x. unfold pretty, pretty_N. case_decide.
    - by split.
    - by apply pretty_N_go_colon_free. }
  destruct n as [|x|x]; unfold pretty, pretty_Z.
  - by split.
  - apply (HN (Npos x)).
  - split; [done|]. apply (HN (Npos x)).
Qed.

(** A colon-free text before a colon is found again from the whole. *)
Lemma append_colon_inj (s1 t1 s2 t2 : string) :
  colon_free s1 → colon_free t1 →
  s1 +:+ ":" +:+ s2 = t1 +:+ ":" +:+ t2 → s1 = t1 ∧ s2 = t2.
Proof.
  revert t1. induction s1 as [|c s1 IH]; intros [|c' t1]; simpl.
  - intros _ _ H. by injection H.
  - intros _ [Hc _] H. injection H as H _. by destruct Hc.
  - intros [Hc _] _ H. injection H as H _. by destruct Hc.
  - intros [_ Hs] [_ Ht] H. injection H as -> H.
    by destruct (IH t1 Hs Ht H) as [-> ->].
Qed.

(** X10: the key of a poll and a choice holds the poll's primary key, read
    from an int or from an instance alike, and the text of the choice
    argument itself: two keys are equal iff the polls' primary keys are
    equal and the two choice arguments are formatted to the same text; the
    primary key computed for the choice is not used. With the choices given
    as ints, two keys are equal iff the polls' primary keys and the two ints
    are. *)
Theorem get_poll_choice_cache_key_eq poll1 poll2 :
  (∀ choice1 choice2,
     get_poll_choice_cache_key poll1 choice1
     = get_poll_choice_cache_key poll2 choice2
     ↔ int_or_pk poll1 = int_or_pk poll2
       ∧ format_s choice1 = format_s choice2)
  ∧ (∀ c1 c2 : Z,
       get_poll_choice_cache_key poll1 (IntArg c1)
       = get_poll_choice_cache_key poll2 (IntArg c2)
       ↔ int_or_pk poll1 = int_or_pk poll2 ∧ c1 = c2).
Proof.
  assert (∀ choice1 choice2,
     get_poll_choice_cache_key poll1 choice1
     = get_poll_choice_cache_key poll2 choice2
     ↔ int_or_pk poll1 = int_or_pk poll2
       ∧ format_s choice1 = format_s choice2) as Hkey.
  { intros choice1 choice2. unfold get_poll_choice_cache_key. split.
    - intros H. simpl in H. injection H as H.
      apply append_colon_inj in H as [H1 H2]; try apply pretty_Z_colon_free.
      split; [|done]. by apply (inj pretty).
    - by intros [-> ->]. }
  split; [done|]. intros c1 c2. rewrite Hkey. simpl. split.
  - intros [? ?]. split; [done|]. by apply (inj pretty).
  - by intros [-> ->].
Qed.

(** X11: [get_user_choice_cache_key] raises AttributeError when the user is
    given as an int, for it reads [user.pk] whatever the argument; with the
    user given as an instance it returns a key, two such keys are equal iff
    the polls' and the users' primary keys are, and none of them is a key of
    a poll and a choice. *)
Theorem get_user_choice_cache_key_spec poll1 poll2 :
  (∀ n, get_user_choice_cache_key poll1 (IntArg n) = AttributeError)
  ∧ (∀ u t, ∃ key, get_user_choice_cache_key poll1 (ModelArg u t)
                   = CacheKey key)
  ∧ (∀ u1 t1 u2 t2,
       get_user_choice_cache_key poll1 (ModelArg u1 t1)
       = get_user_choice_cache_key poll2 (ModelArg u2 t2)
       ↔ int_or_pk poll1 = int_or_pk poll2 ∧ u1 = u2)
  ∧ (∀ user choice,
       get_user_choice_cache_key poll1 user
       ≠ CacheKey (get_poll_choice_cache_key poll2 choice)).
Proof.
  split_and!; [done|by eauto| |].
  - intros u1 t1 u2 t2. unfold get_user_choice_cache_key. split.
    + intros H. simpl in H. injection H as H.
      apply append_colon_inj in H as [H1 H2]; try apply pretty_Z_colon_free.
      split; by apply (inj pretty).
    + by intros [-> ->].
  - intros user choice.
    unfold get_user_choice_cache_key, get_poll_choice_cache_key.
    destruct user; [done|]. simpl. intros [=].
Qed.

Example cache_keys :
  get_poll_choice_cache_key (ModelArg 10 "Poll object") (IntArg 100)
  = "decision:pc:10:100"
  ∧ get_poll_choice_cache_key (IntArg 10) (ModelArg 100 "Choice object")
    = "decision:pc:10:Choice object"
  ∧ get_user_choice_cache_key (IntArg 10) (ModelArg 2 "bob")
    = CacheKey "decision:uv:10:2".
Proof. repeat split; vm_compute; reflexivity. Qed.

(** ** Lookups and the unique constraint *)

(** X12: [set_vote] keeps the vote table with at most one vote for every
    user and poll, whether it succeeds or raises. *)
Theorem set_vote_preserves_unique self user choice delegate secure db :
  votes_unique (decision_vote db) →
  votes_unique (decision_vote (set_vote self user choice delegate secure db).1).
Proof. apply set_vote_unique. Qed.

Lemma set_vote_preserves_unique_witness :
  votes_unique
    (decision_vote
       (set_vote Sample.poll Sample.alice (ChoiceObj Sample.yes) None true
          (mkDB Sample.diamond [] [mkVote Sample.alice 10 101 None])).1).
Proof.
  apply set_vote_preserves_unique.
  apply (bool_decide_unpack _). vm_compute. exact I.
Defined.

(** X13: on a vote table with at most one vote for every user and poll,
    [get_vote] returns a vote iff it is the user's vote for the poll in the
    table, raises DoesNotExist iff the user has no vote for the poll (where
    [get_user_choice] returns None), and never changes the database. *)
Theorem get_vote_spec self user db :
  votes_unique (decision_vote db) →
  (∀ v, get_vote self user db = (db, Ok v) ↔
        v ∈ decision_vote db ∧ vote_user v = user ∧ vote_poll v = poll_pk self)
  ∧ (get_vote self user db = (db, Raise DoesNotExist) ↔
     ∀ v, v ∈ decision_vote db →
          ¬ (vote_user v = user ∧ vote_poll v = poll_pk self))
  ∧ (get_vote self user db = (db, Raise DoesNotExist) ↔
     get_user_choice self user db = (db, Ok None))
  ∧ (get_vote self user db).1 = db.
Proof.
  intros Hu. unfold get_user_choice, get_vote. unfold_M. split_and!.
  - intros v. split.
    + intros [= H]. by apply votes_get_Ok.
    + intros (Hin & Hv & Hp). by rewrite (votes_get_unique self user db v).
  - rewrite <- votes_get_DoesNotExist. split; [by intros [= ->]|by intros ->].
  - destruct (votes_get self user db) as [v|e] eqn:E; [done|].
    destruct (votes_get_errors _ _ _ _ E) as [-> | ->]; [done|].
    by destruct (votes_get_no_multiple self user db Hu).
  - done.
Qed.

Lemma get_vote_spec_witness :
  let db := mkDB Sample.tree []
              [mkVote Sample.dave 10 101 None; mkVote Sample.alice 10 100 None] in
  (∀ v, get_vote Sample.poll Sample.bob db = (db, Ok v) ↔
        v ∈ decision_vote db ∧ vote_user v = Sample.bob
        ∧ vote_poll v = poll_pk Sample.poll)
  ∧ (get_vote Sample.poll Sample.bob db = (db, Raise DoesNotExist) ↔
     ∀ v, v ∈ decision_vote db →
          ¬ (vote_user v = Sample.bob ∧ vote_poll v = poll_pk Sample.poll))
  ∧ (get_vote Sample.poll Sample.bob db = (db, Raise DoesNotExist) ↔
     get_user_choice Sample.poll Sample.bob db = (db, Ok None))
  ∧ (get_vote Sample.poll Sample.bob db).1 = db.
Proof.
  intros db. apply (get_vote_spec Sample.poll Sample.bob db).
  apply (bool_decide_unpack _). vm_compute. exact I.
Defined.

(** ** Voting again *)

(** After a successful run, a run for a vote of the same user on the same
    poll, on a database with the same delegations in which every (user,
    poll) of the votes left by the first run has a vote, writes nothing. *)
Lemma propagate_vote_settled instance_poll instance db db' instance' db2 :
  propagate_vote instance_poll instance db = (db', Ok ()) →
  vote_user instance' = vote_user instance →
  vote_poll instance' = vote_poll instance →
  decision_delegation db2 = decision_delegation db →
  decision_delegation_categories db2 = decision_delegation_categories db →
  (∀ v, v ∈ decision_vote db' →
        ∃ v', v' ∈ decision_vote db2 ∧ same_user_poll v' v) →
  propagate_vote instance_poll instance' db2 = (db2, Ok ()).
Proof.
  intros (rows & Hdlg & [[_ ->] | [[=] _]])%propagate_vote_outcome
    Hu Hp Ht1 Ht2 Hkeys.
  simpl in Hkeys.
  destruct (dlg_lfp db2 instance_poll instance') as (rows' & Hdlg' & _ & Hleast).
  pose proof (dlg_spec _ _ _ _ Hdlg) as (_ & _ & Hbase & Hfix).
  set (g := λ r, mkDlg (dlg_user_id r) (dlg_poll_id r) (vote_choice instance')
                       (dlg_delegate_id r)).
  assert (∀ u p, vote_count db2 u p = 0 →
                 ∀ v, v ∈ decision_vote db ++ selected instance rows →
                      ¬ (vote_user v = u ∧ vote_poll v = p)) as Hcount.
  { intros u p Hc v Hv [Hvu Hvp]. destruct (Hkeys v Hv) as (v' & Hv' & [? ?]).
    apply (proj1 (vote_count_0 _ _ _) Hc v' Hv'). split; congruence. }
  assert (rows' ⊆ g <$> rows) as Hsub.
  { apply Hleast.
    - apply list_elem_of_fmap. exists (base_row instance). split; [|done].
      unfold g, base_row. simpl. by rewrite Hu, Hp.
    - intros r Hr.
      apply recursive_term_elem in Hr as (d & w & Hd & Hw & Hc & ->).
      apply list_elem_of_fmap in Hw as (w1 & -> & Hw1).
      apply where_clause_true in Hc as (Hl & He & Hv). simpl in *.
      apply list_elem_of_fmap.
      exists (mkDlg (follower d) (dlg_poll_id w1) (dlg_choice_id w1)
                    (Some (leader d))).
      split; [done|]. apply Hfix. right. apply recursive_term_elem.
      exists d, w1. split_and!; [by rewrite <- Ht1|done| |done].
      apply where_clause_true. split_and!; [done| |].
      + revert He. unfold extra_condition. by rewrite Ht2.
      + apply vote_count_0. intros v Hv'.
        apply (Hcount _ _ Hv v). apply elem_of_app. by left. }
  assert (selected instance' rows' = []) as Hnone.
  { apply elem_of_nil_inv. intros v Hv.
    destruct (selected_reached _ _ _ _ _ Hdlg' Hv)
      as (_ & Hvp & via & _ & Hin & Hvia).
    apply Hvia in Hin.
    apply selected_elem in Hv as (r & Hr & Hne & ->). simpl in *.
    apply Hsub, list_elem_of_fmap in Hr as (r1 & -> & Hr1). simpl in *.
    apply (Hcount _ _ Hin
             (mkVote (dlg_user_id r1) (dlg_poll_id r1) (dlg_choice_id r1)
                     (dlg_delegate_id r1))); [|by split].
    apply elem_of_app. right. apply selected_elem. exists r1.
    split_and!; [done| |done]. by rewrite <- Hu. }
  unfold propagate_vote. rewrite Hdlg', Hnone. simpl. by destruct db2.
Qed.

(** X14: once a vote of a user has been written and propagated, a further
    successful [set_vote] of the same user on the same poll, whatever its
    choice and delegate, changes that user's row only: the votes inherited
    from the first call stay as they are, with the choice they inherited,
    and no vote is added. *)
Theorem set_vote_again self user choice1 delegate1 secure1
    choice2 delegate2 secure2 db db1 db2 vote1 vote2 :
  votes_unique (decision_vote db) →
  set_vote self user choice1 delegate1 secure1 db = (db1, Ok vote1) →
  set_vote self user choice2 delegate2 secure2 db1 = (db2, Ok vote2) →
  decision_vote db2
  = (λ v, if decide (same_user_poll v vote1) then vote2 else v)
    <$> decision_vote db1.
Proof.
  intros Hu E1 E2.
  destruct (set_vote_stored _ _ _ _ _ _ _ _ Hu E1) as [Hget (c1 & -> & Hv1)].
  apply set_vote_inv in E1 as [[_ [e [=]]] | (c & votes1 & r & E1)].
  simpl in E1. destruct E1 as (_ & [= <-] & _ & _ & _ & Hp1 & Hres1).
  destruct r as [[]|]; [|done]. rewrite <- Hv1 in Hp1.
  pose proof (propagate_vote_tables _ _ _ _ _ Hp1) as [Ht1 Ht2]. simpl in *.
  apply set_vote_inv in E2 as [[_ [e [=]]] | (c2 & votes2 & r & E2)].
  simpl in E2. destruct E2 as (_ & -> & _ & _ & Hw & Hp2 & Hres2).
  destruct r as [[]|]; [|done]. injection Hres2 as ->.
  destruct Hw as [[Hnone _] | (old & Hold & _ & ->)]; [congruence|].
  rewrite Hget in Hold. injection Hold as <-.
  rewrite (propagate_vote_settled self vote1 (set_decision_vote db votes1) db1
             (mkVote user (poll_pk self) (choice_pk c2) delegate2) _ Hp1)
    in Hp2; try done.
  - by injection Hp2 as <-.
  - by rewrite Hv1.
  - by rewrite Hv1.
  - intros v Hv. eexists. split.
    + simpl. by apply list_elem_of_fmap_2.
    + simpl. case_decide as Hs; [|done]. destruct Hs as [Hsu Hsp].
      rewrite Hv1 in Hsu, Hsp. by split.
Qed.

Lemma set_vote_again_witness :
  let db := mkDB Sample.tree [] [] in
  let db1 := (set_vote Sample.poll Sample.alice (ChoiceObj Sample.yes)
                None true db).1 in
  let db2 := (set_vote Sample.poll Sample.alice (ChoiceObj Sample.no)
                None true db1).1 in
  decision_vote db2
  = (λ v, if decide (same_user_poll v (mkVote Sample.alice 10 100 None))
          then mkVote Sample.alice 10 101 None else v)
    <$> decision_vote db1.
Proof.
  intros db db1 db2.
  apply (set_vote_again Sample.poll Sample.alice
           (ChoiceObj Sample.yes) None true (ChoiceObj Sample.no) None true db).
  - apply (bool_decide_unpack _). vm_compute. exact I.
  - reflexivity.
  - reflexivity.
Defined.

(** alice votes yes, then no: bob, carol and dave keep the yes they
    inherited. *)
Example revote_keeps_inherited :
  (set_vote Sample.poll Sample.alice (ChoiceObj Sample.no) None true
     (set_vote Sample.poll Sample.alice (ChoiceObj Sample.yes) None true
        (mkDB Sample.tree [] [])).1).1.(decision_vote)
  = [mkVote Sample.alice 10 101 None;
     mkVote Sample.bob 10 100 (Some Sample.alice);
     mkVote Sample.carol 10 100 (Some Sample.alice);
     mkVote Sample.dave 10 100 (Some Sample.bob)].
Proof. vm_compute. reflexivity. Qed.
